(** * Pagination: page cursors of youtubes.js

    A shallow embedding of [src/Pagination.ts] (class [Pagination<T>]) and
    the properties of its constructor and of its three methods [prev],
    [next] and [all].

    Conventions of the embedding.
    - A JavaScript object is represented by the record of its fields; a
      method takes the receiver [this] and hands it back next to its result
      (explicit state passing), so that what a call does to the receiver's
      fields is part of the method's value.
    - [getWithToken] is a closure of the calling request layer.  It is
      represented by a handle ([Fetcher]) whose behaviour is given by
      [run_fetcher]: a function of the token and of the state of the outside
      world, which it may change.  Cursors handed out by a fetcher carry
      handles of their own, so cyclic chains (B.next = C, C.prev = B) are
      ordinary values.
    - [await] is sequencing in the monad [Async]; the promise returned by a
      fetcher is assumed to settle with a [Result] (the contract of the
      request layer), rejections are not modelled.
    - Every invocation of a fetcher is recorded in [calls], a ghost trace
      used to count fetches; an entry names the method that made the call.
    - The two [while] loops of [all] take a [fuel] bounding the number of
      iterations; [None] as the outcome of [all] means the fuel ran out.
    - Module [Shared] embeds the three methods a second time, with the
      cursors in a store and fetchers that can reach them, for what the
      methods do to the fields of their receiver. *)

From Stdlib Require Import List String Bool Arith Lia ZArith.
Import ListNotations.

Set Implicit Arguments.
Open Scope string_scope.
Open Scope list_scope.

(** ** JavaScript and neverthrow values *)

(** An optional property of type [A | null]: it may be missing
    ([undefined]), [null], or hold a value. *)
Inductive Optional (A : Type) : Type :=
| undefined : Optional A
| null : Optional A
| present : A -> Optional A.
Arguments undefined {A}.
Arguments null {A}.
Arguments present {A} _.

(** Modelled from the spec: [isNullish] of [./utils] is not among the
    sources.  The spec speaks of a field being absent; the helper is taken
    to be the usual test [v === null || v === undefined]. *)
Definition isNullish {A : Type} (v : Optional A) : bool :=
  match v with
  | undefined | null => true
  | present _ => false
  end.

(** An optional property is absent when it is missing or [null]. *)
Definition absent {A : Type} (v : Optional A) : Prop :=
  v = undefined \/ v = null.

(** [v ?? null] at type [A | null]; [None] stands for [null]. *)
Definition or_null {A : Type} (v : Optional A) : option A :=
  match v with
  | undefined | null => None
  | present a => Some a
  end.

(** The truth value of a string in a condition: only the empty string is
    falsy. *)
Definition truthy (s : string) : bool :=
  match s with
  | EmptyString => false
  | String _ _ => true
  end.

(** [!v] for [v : string | null]. *)
Definition not_token (v : option string) : bool :=
  match v with
  | None => true
  | Some s => negb (truthy s)
  end.

(** neverthrow's [Result<A, E>]. *)
Inductive Result (A E : Type) : Type :=
| ok : A -> Result A E
| err : E -> Result A E.
Arguments ok {A E} _.
Arguments err {A E} _.

(** [new Error(message)] and the completion of an expression that may
    throw. *)
Inductive JsError : Type :=
| Error : string -> JsError.

Inductive Completion (A : Type) : Type :=
| Normal : A -> Completion A
| Throw : JsError -> Completion A.
Arguments Normal {A} _.
Arguments Throw {A} _.

(** Where a [while] loop of [all] leaves the method: by falling through
    to the next statement with the array built so far, by [return err(..)],
    or not within the fuel. *)
Inductive LoopExit (T E : Type) : Type :=
| Fallthrough : list T -> LoopExit T E
| Returned : E -> LoopExit T E
| OutOfFuel : LoopExit T E.
Arguments Fallthrough {T E} _.
Arguments Returned {T E} _.
Arguments OutOfFuel {T E}.

(** The method in whose body a fetcher is invoked (a label of the ghost
    trace). *)
Inductive Site : Type :=
| in_prev : Site
| in_next : Site.

Declare Scope async_scope.
Delimit Scope async_scope with async.

Section Pagination.

(** The page payload, JavaScript numbers, the error union and the logger
    are opaque to the class. *)
Variable T : Type.
Variable number : Type.
Variable YouTubesJsErrors : Type.
Variable Logger : Type.
Variable createChild : Logger -> string -> Logger.

(** The message constant of [./constants]. *)
Variable LIKELY_BUG : string.

(** Handles of the closures stored in [getWithToken]. *)
Variable Fetcher : Type.

(** The state of everything outside the class (the remote service, the
    client, counters of a test double, ...). *)
Variable World : Type.

(** ** The class *)

Record Pagination : Type := mkPagination {
  data : T;
  resultsPerPage : number;
  totalResults : number;
  prevToken : option string;
  nextToken : option string;
  getWithToken : Fetcher;
  logger : Logger
}.

Record PaginationOptions : Type := mkOptions {
  opt_data : T;
  opt_logger : Logger;
  opt_prevToken : Optional string;
  opt_nextToken : Optional string;
  opt_resultsPerPage : Optional number;
  opt_totalResults : Optional number;
  opt_getWithToken : Fetcher
}.

Definition Outcome : Type := Result Pagination YouTubesJsErrors.

(** What a fetcher does when called with a token. *)
Variable run_fetcher : Fetcher -> string -> World -> Outcome * World.

(** ** The constructor

    The value is the completion of [new Pagination(options)] together
    with the messages sent to [this.logger.debug]. *)
Definition constructor (o : PaginationOptions)
  : Completion Pagination * list (Logger * string) :=
  let this_data := opt_data o in
  let this_logger := createChild (opt_logger o) "Pagination#constructor" in
  let this_prevToken := or_null (opt_prevToken o) in
  let this_nextToken := or_null (opt_nextToken o) in
  let this_getWithToken := opt_getWithToken o in
  if isNullish (opt_resultsPerPage o) || isNullish (opt_totalResults o)
  then
    (Throw (Error LIKELY_BUG),
     [ (this_logger, "resultsPerPage or totalResults is not provided");
       (this_logger,
        "resultsPerPage and totalResults are expected to be included in the API response") ])
  else
    match opt_resultsPerPage o, opt_totalResults o with
    | present resultsPerPage, present totalResults =>
        (Normal
           {| data := this_data;
              resultsPerPage := resultsPerPage;
              totalResults := totalResults;
              prevToken := this_prevToken;
              nextToken := this_nextToken;
              getWithToken := this_getWithToken;
              logger := this_logger |},
         [])
    | _, _ =>
        (* not reached: the test above has excluded the nullish cases *)
        (Throw (Error LIKELY_BUG), [])
    end.

(** ** Asynchronous computations *)

(** One invocation of a fetcher: from which method, which closure, with
    which token, and what it answered. *)
Record Call : Type := mkCall {
  call_site : Site;
  call_fetcher : Fetcher;
  call_token : string;
  call_outcome : Outcome
}.

Record State : Type := mkState {
  world : World;
  calls : list Call
}.

Definition Async (A : Type) : Type := State -> A * State.

Definition ret {A : Type} (a : A) : Async A := fun s => (a, s).

Definition bind {A B : Type} (m : Async A) (k : A -> Async B) : Async B :=
  fun s => let (a, s') := m s in k a s'.

Local Notation "x <- m ;; k" := (bind m (fun x => k))
  (at level 61, m at next level, right associativity) : async_scope.
Local Notation "' p <- m ;; k" := (bind m (fun x => let 'p := x in k))
  (at level 61, p pattern, m at next level, right associativity) : async_scope.
Local Open Scope async_scope.

(** [await f(token)] for the closure [f], in the body of method [site]. *)
Definition await_call (site : Site) (f : Fetcher) (token : string)
  : Async Outcome :=
  fun s =>
    let (r, w) := run_fetcher f token (world s) in
    (r, {| world := w; calls := calls s ++ [mkCall site f token r] |}).

(** ** The methods *)

Definition prev (this : Pagination)
  : Async (option Outcome * Pagination) :=
  match prevToken this with
  | None => ret (None, this)
  | Some token =>
      if negb (truthy token) then ret (None, this)
      else
        data <- await_call in_prev (getWithToken this) token ;;
        ret (Some data, this)
  end.

Definition next (this : Pagination)
  : Async (option Outcome * Pagination) :=
  match nextToken this with
  | None => ret (None, this)
  | Some token =>
      if negb (truthy token) then ret (None, this)
      else
        data <- await_call in_next (getWithToken this) token ;;
        ret (Some data, this)
  end.

(** [while (prev) { ... }] of [all], entered with the current value of
    the variable [prev] and of the array [result]. *)
Fixpoint while_prev (fuel : nat) (prev_ : option Outcome) (result : list T)
  {struct fuel} : Async (LoopExit T YouTubesJsErrors) :=
  match prev_ with
  | None => ret (Fallthrough result)
  | Some (err error) => ret (Returned error)
  | Some (ok value) =>
      match fuel with
      | O => ret OutOfFuel
      | S fuel' =>
          let result := data value :: result in
          '(prev_, _) <- prev value ;;
          while_prev fuel' prev_ result
      end
  end.

(** [while (next) { ... }] of [all]. *)
Fixpoint while_next (fuel : nat) (next_ : option Outcome) (result : list T)
  {struct fuel} : Async (LoopExit T YouTubesJsErrors) :=
  match next_ with
  | None => ret (Fallthrough result)
  | Some (err error) => ret (Returned error)
  | Some (ok value) =>
      match fuel with
      | O => ret OutOfFuel
      | S fuel' =>
          let result := result ++ [data value] in
          '(next_, _) <- next value ;;
          while_next fuel' next_ result
      end
  end.

Definition all (fuel : nat) (this : Pagination)
  : Async (option (Result (list T) YouTubesJsErrors) * Pagination) :=
  let result := [data this] in
  '(prev_, this) <- prev this ;;
  backward <- while_prev fuel prev_ result ;;
  match backward with
  | Returned error => ret (Some (err error), this)
  | OutOfFuel => ret (None, this)
  | Fallthrough result =>
      '(next_, this) <- next this ;;
      forward <- while_next fuel next_ result ;;
      match forward with
      | Returned error => ret (Some (err error), this)
      | OutOfFuel => ret (None, this)
      | Fallthrough result => ret (Some (ok result), this)
      end
  end.

(** ** Vocabulary of the specification *)

(** Fetcher [f] answers [token] with the page [p], whatever the state of
    the world. *)
Definition serves (f : Fetcher) (token : string) (p : Pagination) : Prop :=
  forall w, fst (run_fetcher f token w) = ok p.

(** A fetcher is deterministic on a token when its answer does not depend
    on the state of the world. *)
Definition deterministic (f : Fetcher) (token : string) : Prop :=
  forall w1 w2, fst (run_fetcher f token w1) = fst (run_fetcher f token w2).

(** [b] is the page before [a], resp. after [a]: [a] holds a usable token
    which its fetcher answers with [b]. *)
Definition prev_page (a b : Pagination) : Prop :=
  exists token,
    prevToken a = Some token /\ truthy token = true /\
    serves (getWithToken a) token b.

Definition next_page (a b : Pagination) : Prop :=
  exists token,
    nextToken a = Some token /\ truthy token = true /\
    serves (getWithToken a) token b.

(** [a] and [b] are adjacent pages, [a] first. *)
Definition linked (a b : Pagination) : Prop :=
  next_page a b /\ prev_page b a.

(** [first :: rest] are consecutive pages up to the last page of the
    collection. *)
Fixpoint chain_from (first : Pagination) (rest : list Pagination) : Prop :=
  match rest with
  | [] => not_token (nextToken first) = true
  | p :: rest' => linked first p /\ chain_from p rest'
  end.

(** A chain of pages: all the pages of a collection, in page order. *)
Definition chain (pages : list Pagination) : Prop :=
  match pages with
  | [] => False
  | first :: rest =>
      not_token (prevToken first) = true /\ chain_from first rest
  end.

(** The pages met walking backward, resp. forward, from a page, nearest
    first, up to the first, resp. last, page of the collection. *)
Fixpoint pages_before (c : Pagination) (pages : list Pagination) : Prop :=
  match pages with
  | [] => not_token (prevToken c) = true
  | p :: pages' => prev_page c p /\ pages_before p pages'
  end.

Fixpoint pages_after (c : Pagination) (pages : list Pagination) : Prop :=
  match pages with
  | [] => not_token (nextToken c) = true
  | p :: pages' => next_page c p /\ pages_after p pages'
  end.

(** No call of the list failed, except possibly the last one, and then
    [returned] is its error. *)
Fixpoint ends_at_failure (l : list Call) (returned : option YouTubesJsErrors)
  : Prop :=
  match l with
  | [] => True
  | k :: rest =>
      match call_outcome k with
      | err e => rest = [] /\ returned = Some e
      | ok _ => ends_at_failure rest returned
      end
  end.

(** The trace [l] of a loop entered with the pending outcome [pending]
    of the hop before it: a pending failure is returned at once. *)
Definition loop_trace (pending : option Outcome) (l : list Call)
  (returned : option YouTubesJsErrors) : Prop :=
  match pending with
  | Some (err e) => l = [] /\ returned = Some e
  | Some (ok _) | None => ends_at_failure l returned
  end.

(** The error a loop returned with, if it did. *)
Definition returned_error (x : LoopExit T YouTubesJsErrors)
  : option YouTubesJsErrors :=
  match x with
  | Returned e => Some e
  | Fallthrough _ | OutOfFuel => None
  end.

(** The error [all] answered with, if it did. *)
Definition failure_of (r : option (Result (list T) YouTubesJsErrors))
  : option YouTubesJsErrors :=
  match r with
  | Some (err e) => Some e
  | Some (ok _) | None => None
  end.

(** A client calling methods of one cursor, one after the other. *)
Inductive Op : Type :=
| op_prev : Op
| op_next : Op
| op_all : nat -> Op.

(** The receiver after one call, resp. after a sequence of calls. *)
Definition run_op (op : Op) (this : Pagination) : Async Pagination :=
  match op with
  | op_prev => '(_, this) <- prev this ;; ret this
  | op_next => '(_, this) <- next this ;; ret this
  | op_all fuel => '(_, this) <- all fuel this ;; ret this
  end.

Fixpoint run_ops (ops : list Op) (this : Pagination) : Async Pagination :=
  match ops with
  | [] => ret this
  | op :: ops' => this <- run_op op this ;; run_ops ops' this
  end.

(** ** Vocabulary for walks in general *)

(** The payloads of the pages a list of invocations was answered with. *)
Fixpoint payloads (l : list Call) : list T :=
  match l with
  | [] => []
  | k :: rest =>
      match call_outcome k with
      | ok p => data p :: payloads rest
      | err _ => payloads rest
      end
  end.

(** The page on which a walk from [c] stands after the invocations [l]. *)
Fixpoint last_page (c : Pagination) (l : list Call) : Pagination :=
  match l with
  | [] => c
  | k :: rest =>
      match call_outcome k with
      | ok p => last_page p rest
      | err _ => c
      end
  end.

(** [l] is a walk from [c] in one direction: every invocation is made
    from [site], with the fetcher and the token (as [token_of] reads it) of
    the page the walk stands on, which is [c] at first and then the page the
    invocation before was answered with; a failure is the last invocation. *)
Fixpoint follows (site : Site) (token_of : Pagination -> option string)
  (c : Pagination) (l : list Call) : Prop :=
  match l with
  | [] => True
  | k :: rest =>
      call_site k = site /\
      call_fetcher k = getWithToken c /\
      token_of c = Some (call_token k) /\
      truthy (call_token k) = true /\
      match call_outcome k with
      | ok p => follows site token_of p rest
      | err _ => rest = []
      end
  end.

(** A set of pages each of which has a previous page in the set: walking
    backward from one of them never reaches a first page. *)
Definition closed_backward (P : Pagination -> Prop) : Prop :=
  forall p, P p -> exists q, prev_page p q /\ P q.

End Pagination.

(** ** A sample collection

    Three pages of video ids behind the tokens [a], [b] and [c].  The
    world counts the requests served.  The fetcher [healthy] serves every
    page; [flaky] fails on the first page.  Other tokens are refused. *)
Module Sample.

Inductive SampleFetcher : Type :=
| healthy : SampleFetcher
| flaky : SampleFetcher.

Definition Page : Type := Pagination (list nat) Z string SampleFetcher.

Definition child (parent name : string) : string := parent ++ "/" ++ name.

Definition likely_bug : string := "This is likely a bug".

Definition pageA (f : SampleFetcher) : Page :=
  {| data := [1; 2]; resultsPerPage := 2%Z; totalResults := 5%Z;
     prevToken := None; nextToken := Some "b";
     getWithToken := f; logger := "client" |}.

Definition pageB (f : SampleFetcher) : Page :=
  {| data := [3; 4]; resultsPerPage := 2%Z; totalResults := 5%Z;
     prevToken := Some "a"; nextToken := Some "c";
     getWithToken := f; logger := "client" |}.

Definition pageC (f : SampleFetcher) : Page :=
  {| data := [5]; resultsPerPage := 1%Z; totalResults := 5%Z;
     prevToken := Some "b"; nextToken := None;
     getWithToken := f; logger := "client" |}.

(** A page whose previous and next tokens are empty strings, as the
    constructor builds it from [optionsE] below. *)
Definition pageE : Page :=
  {| data := [6]; resultsPerPage := 1%Z; totalResults := 1%Z;
     prevToken := Some EmptyString; nextToken := Some EmptyString;
     getWithToken := healthy;
     logger := child "client" "Pagination#constructor" |}.

Definition run (f : SampleFetcher) (token : string) (served : nat)
  : Result Page string * nat :=
  (if String.eqb token "a" then
     match f with
     | healthy => ok (pageA f)
     | flaky => err "backendError"
     end
   else if String.eqb token "b" then ok (pageB f)
   else if String.eqb token "c" then ok (pageC f)
   else err "invalidPageToken",
   S served).

Definition start : State (list nat) Z string string SampleFetcher nat :=
  {| world := 0; calls := [] |}.

Definition options (rpp total : Optional Z)
  : PaginationOptions (list nat) Z string SampleFetcher :=
  {| opt_data := [3; 4]; opt_logger := "client";
     opt_prevToken := present "a"; opt_nextToken := undefined;
     opt_resultsPerPage := rpp; opt_totalResults := total;
     opt_getWithToken := healthy |}.

Definition optionsE : PaginationOptions (list nat) Z string SampleFetcher :=
  {| opt_data := [6]; opt_logger := "client";
     opt_prevToken := present EmptyString;
     opt_nextToken := present EmptyString;
     opt_resultsPerPage := present 1%Z; opt_totalResults := present 1%Z;
     opt_getWithToken := healthy |}.

End Sample.

(** ** A collection that runs in a circle

    One page whose previous page is itself: the token [again] is answered
    with the page that holds it. *)
Module Circle.

Definition Page : Type := Pagination nat Z string unit.

Definition page : Page :=
  {| data := 7; resultsPerPage := 1%Z; totalResults := 1%Z;
     prevToken := Some "again"; nextToken := None;
     getWithToken := tt; logger := "client" |}.

Definition run (f : unit) (token : string) (served : nat)
  : Result Page string * nat :=
  (ok page, S served).

Definition start : State nat Z string string unit nat :=
  {| world := 0; calls := [] |}.

End Circle.

(** ** Cursors as shared objects

    Above, cursors are passed by value, which leaves a fetcher no way to
    the cursors that exist already.  In the program a cursor is an object
    with public, assignable fields, and [this.getWithToken(token)] calls
    the closure as a method of the cursor; the closure may also hold
    references to cursors.  Here the cursors live in a store, a method
    takes the reference of its receiver and reads the fields where they
    are at the time, and a fetcher is given the reference of the cursor it
    is called on and the whole store: it may write to any cursor and answer
    with any reference, a cursor it has just made or one that was there. *)
Module Shared.

Section Store.

Variables T number YouTubesJsErrors Logger Fetcher World : Type.

Definition Ref : Type := nat.

Record Store : Type := mkStore {
  objects : Ref -> Pagination T number Logger Fetcher;
  outside : World
}.

Definition Answer : Type := Result Ref YouTubesJsErrors.

(** What a fetcher does when called as [receiver.getWithToken(token)]. *)
Variable call : Fetcher -> Ref -> string -> Store -> Answer * Store.

Definition prev (this : Ref) (s : Store) : option Answer * Store :=
  match prevToken (objects s this) with
  | None => (None, s)
  | Some token =>
      if negb (truthy token) then (None, s)
      else
        let (data, s') := call (getWithToken (objects s this)) this token s in
        (Some data, s')
  end.

Definition next (this : Ref) (s : Store) : option Answer * Store :=
  match nextToken (objects s this) with
  | None => (None, s)
  | Some token =>
      if negb (truthy token) then (None, s)
      else
        let (data, s') := call (getWithToken (objects s this)) this token s in
        (Some data, s')
  end.

Fixpoint while_prev (fuel : nat) (prev_ : option Answer) (result : list T)
  (s : Store) {struct fuel} : LoopExit T YouTubesJsErrors * Store :=
  match prev_ with
  | None => (Fallthrough result, s)
  | Some (err error) => (Returned error, s)
  | Some (ok value) =>
      match fuel with
      | O => (OutOfFuel, s)
      | S fuel' =>
          let result := data (objects s value) :: result in
          let (prev_, s') := prev value s in
          while_prev fuel' prev_ result s'
      end
  end.

Fixpoint while_next (fuel : nat) (next_ : option Answer) (result : list T)
  (s : Store) {struct fuel} : LoopExit T YouTubesJsErrors * Store :=
  match next_ with
  | None => (Fallthrough result, s)
  | Some (err error) => (Returned error, s)
  | Some (ok value) =>
      match fuel with
      | O => (OutOfFuel, s)
      | S fuel' =>
          let result := result ++ [data (objects s value)] in
          let (next_, s') := next value s in
          while_next fuel' next_ result s'
      end
  end.

Definition all (fuel : nat) (this : Ref) (s : Store)
  : option (Result (list T) YouTubesJsErrors) * Store :=
  let result := [data (objects s this)] in
  let (prev_, s1) := prev this s in
  let (backward, s2) := while_prev fuel prev_ result s1 in
  match backward with
  | Returned error => (Some (err error), s2)
  | OutOfFuel => (None, s2)
  | Fallthrough result =>
      let (next_, s3) := next this s2 in
      let (forward, s4) := while_next fuel next_ result s3 in
      match forward with
      | Returned error => (Some (err error), s4)
      | OutOfFuel => (None, s4)
      | Fallthrough result => (Some (ok result), s4)
      end
  end.

(** The store after one call, resp. a sequence of calls, of methods of
    the cursor [this]. *)
Definition run_op (op : Op) (this : Ref) (s : Store) : Store :=
  match op with
  | op_prev => snd (prev this s)
  | op_next => snd (next this s)
  | op_all fuel => snd (all fuel this s)
  end.

Fixpoint run_ops (ops : list Op) (this : Ref) (s : Store) : Store :=
  match ops with
  | [] => s
  | op :: ops' => run_ops ops' this (run_op op this s)
  end.

(** The fetchers leave the cursor [this] alone: in every store that can
    arise (those of [reachable], which the fetchers keep to), whatever
    cursor a fetcher is called on and with whatever token, it leaves the
    fields of [this] as they were. *)
Definition quiet_about (this : Ref) (reachable : Store -> Prop) : Prop :=
  forall f receiver token s,
    reachable s ->
    reachable (snd (call f receiver token s)) /\
    objects (snd (call f receiver token s)) this = objects s this.

End Store.

End Shared.

(** ** Two fetchers over a store of three cursors

    The cursors at references 0, 1 and 2 are the three pages of a
    collection.  The fetcher [tidy] answers with the reference of the
    neighbouring cursor and writes nothing.  The fetcher [meddling] empties
    the payload of the cursor it is called on and answers with that very
    cursor. *)
Module Meddler.

Definition Page : Type := Pagination (list nat) Z string unit.

Definition page_at (r : Shared.Ref) : Page :=
  match r with
  | 0 =>
      {| data := [1; 2]; resultsPerPage := 2%Z; totalResults := 5%Z;
         prevToken := None; nextToken := Some "n";
         getWithToken := tt; logger := "client" |}
  | 1 =>
      {| data := [3; 4]; resultsPerPage := 2%Z; totalResults := 5%Z;
         prevToken := Some "p"; nextToken := Some "n";
         getWithToken := tt; logger := "client" |}
  | _ =>
      {| data := [5]; resultsPerPage := 1%Z; totalResults := 5%Z;
         prevToken := Some "p"; nextToken := None;
         getWithToken := tt; logger := "client" |}
  end.

Definition start : Shared.Store (list nat) Z string unit unit :=
  {| Shared.objects := page_at; Shared.outside := tt |}.

Definition tidy (f : unit) (receiver : Shared.Ref) (token : string)
  (s : Shared.Store (list nat) Z string unit unit)
  : Shared.Answer string * Shared.Store (list nat) Z string unit unit :=
  (if String.eqb token "p" then ok (Nat.pred receiver) else ok (S receiver),
   s).

Definition emptied (p : Page) : Page :=
  {| data := []; resultsPerPage := resultsPerPage p;
     totalResults := totalResults p;
     prevToken := prevToken p; nextToken := nextToken p;
     getWithToken := getWithToken p; logger := logger p |}.

Definition meddling (f : unit) (receiver : Shared.Ref) (token : string)
  (s : Shared.Store (list nat) Z string unit unit)
  : Shared.Answer string * Shared.Store (list nat) Z string unit unit :=
  (ok receiver,
   {| Shared.objects :=
        fun r =>
          if Nat.eqb r receiver then emptied (Shared.objects s r)
          else Shared.objects s r;
      Shared.outside := Shared.outside s |}).

End Meddler.

(** * Properties *)

Section Properties.

Variables T number YouTubesJsErrors Logger Fetcher World : Type.
Variable createChild : Logger -> string -> Logger.
Variable LIKELY_BUG : string.
Variable run_fetcher :
  Fetcher -> string -> World ->
  Outcome T number YouTubesJsErrors Logger Fetcher * World.

Local Abbreviation Page := (Pagination T number Logger Fetcher).
Local Abbreviation Options := (PaginationOptions T number Logger Fetcher).
Local Abbreviation St := (State T number YouTubesJsErrors Logger Fetcher World).
Local Abbreviation Trace := (list (Call T number YouTubesJsErrors Logger Fetcher)).

(** ** The constructor *)

Lemma absent_isNullish (A : Type) (v : Optional A) :
  absent v <-> isNullish v = true.
Proof.
  unfold absent; destruct v; simpl; split; intros H;
    try tauto; try discriminate; destruct H; discriminate.
Qed.

(** C3.  A construction in which [resultsPerPage] or [totalResults] is
    absent throws [Error(LIKELY_BUG)] and yields no cursor; a construction
    in which both are present completes normally with a cursor that stores
    the two numbers and the other options. *)
Theorem constructor_requires_counts (o : Options) :
  (absent (opt_resultsPerPage o) \/ absent (opt_totalResults o) ->
   fst (constructor createChild LIKELY_BUG o) = Throw (Error LIKELY_BUG)) /\
  (forall r t,
     opt_resultsPerPage o = present r ->
     opt_totalResults o = present t ->
     exists p,
       constructor createChild LIKELY_BUG o = (Normal p, []) /\
       resultsPerPage p = r /\ totalResults p = t /\
       data p = opt_data o /\
       prevToken p = or_null (opt_prevToken o) /\
       nextToken p = or_null (opt_nextToken o) /\
       getWithToken p = opt_getWithToken o).
Proof.
  split.
  - intros H. unfold constructor.
    assert (E : isNullish (opt_resultsPerPage o)
                || isNullish (opt_totalResults o) = true).
    { apply orb_true_iff.
      destruct H as [H | H]; [left | right]; now apply absent_isNullish. }
    now rewrite E.
  - intros r t Hr Ht. unfold constructor. rewrite Hr, Ht. simpl.
    eexists. split; [reflexivity |]. simpl. repeat split; reflexivity.
Qed.

(** ** One hop: [prev] and [next] *)

Lemma prev_falsy (c : Page) (s : St) :
  not_token (prevToken c) = true -> prev run_fetcher c s = (None, c, s).
Proof.
  unfold prev, not_token. destruct (prevToken c) as [token |]; [| reflexivity].
  intros H. now rewrite H.
Qed.

Lemma next_falsy (c : Page) (s : St) :
  not_token (nextToken c) = true -> next run_fetcher c s = (None, c, s).
Proof.
  unfold next, not_token. destruct (nextToken c) as [token |]; [| reflexivity].
  intros H. now rewrite H.
Qed.

Lemma prev_truthy (c : Page) (s : St) (token : string) :
  prevToken c = Some token -> truthy token = true ->
  prev run_fetcher c s =
    (Some (fst (run_fetcher (getWithToken c) token (world s))), c,
     {| world := snd (run_fetcher (getWithToken c) token (world s));
        calls := calls s ++
                 [mkCall in_prev (getWithToken c) token
                    (fst (run_fetcher (getWithToken c) token (world s)))] |}).
Proof.
  intros Ht Hy. unfold prev. rewrite Ht, Hy. simpl.
  unfold bind, await_call, ret.
  now destruct (run_fetcher (getWithToken c) token (world s)).
Qed.

Lemma next_truthy (c : Page) (s : St) (token : string) :
  nextToken c = Some token -> truthy token = true ->
  next run_fetcher c s =
    (Some (fst (run_fetcher (getWithToken c) token (world s))), c,
     {| world := snd (run_fetcher (getWithToken c) token (world s));
        calls := calls s ++
                 [mkCall in_next (getWithToken c) token
                    (fst (run_fetcher (getWithToken c) token (world s)))] |}).
Proof.
  intros Ht Hy. unfold next. rewrite Ht, Hy. simpl.
  unfold bind, await_call, ret.
  now destruct (run_fetcher (getWithToken c) token (world s)).
Qed.

(** C4.  With [prevToken] absent, [prev] answers [null] (neither a
    success nor a failure) and leaves the state, hence the trace of fetcher
    invocations, as it was. *)
Theorem prev_without_token (c : Page) (s : St) :
  prevToken c = None -> prev run_fetcher c s = (None, c, s).
Proof.
  intros H. apply prev_falsy. now rewrite H.
Qed.

(** C5.  With [nextToken] absent, [next] answers [null] (neither a
    success nor a failure) and leaves the state, hence the trace of fetcher
    invocations, as it was. *)
Theorem next_without_token (c : Page) (s : St) :
  nextToken c = None -> next run_fetcher c s = (None, c, s).
Proof.
  intros H. apply next_falsy. now rewrite H.
Qed.

(** C6 (amended).  With a present and non-empty token, [prev] (resp.
    [next]) invokes the cursor's fetcher exactly once, with that very token,
    and its answer is the fetcher's outcome, success or failure alike;
    the only trace it leaves is the record of that one invocation. *)
Theorem hop_fetches_once (c : Page) (s : St) (token : string) :
  truthy token = true ->
  let '(r, w) := run_fetcher (getWithToken c) token (world s) in
  (prevToken c = Some token ->
   prev run_fetcher c s =
     (Some r, c,
      {| world := w;
         calls := calls s ++ [mkCall in_prev (getWithToken c) token r] |}))
  /\
  (nextToken c = Some token ->
   next run_fetcher c s =
     (Some r, c,
      {| world := w;
         calls := calls s ++ [mkCall in_next (getWithToken c) token r] |})).
Proof.
  intros Hy.
  destruct (run_fetcher (getWithToken c) token (world s)) as [r w] eqn:E.
  split; intros Ht.
  - rewrite (prev_truthy c s Ht Hy), E. reflexivity.
  - rewrite (next_truthy c s Ht Hy), E. reflexivity.
Qed.

(** C9.  An empty-string token counts as no token: [prev] (resp. [next])
    answers [null] and the state, hence the trace, is untouched; more
    generally no call with the empty string as its token is ever added to
    the trace by [prev] or [next]. *)
Theorem empty_token_is_no_token (c : Page) (s : St) :
  (prevToken c = Some EmptyString -> prev run_fetcher c s = (None, c, s)) /\
  (nextToken c = Some EmptyString -> next run_fetcher c s = (None, c, s)) /\
  (forall k,
     In k (calls (snd (prev run_fetcher c s))) \/
     In k (calls (snd (next run_fetcher c s))) ->
     In k (calls s) \/ call_token k <> EmptyString).
Proof.
  split; [| split].
  - intros H. apply prev_falsy. now rewrite H.
  - intros H. apply next_falsy. now rewrite H.
  - intros k [H | H].
    + destruct (prevToken c) as [token |] eqn:Ht.
      * destruct (truthy token) eqn:Hy.
        -- rewrite (prev_truthy c s Ht Hy) in H. simpl in H.
           apply in_app_or in H. destruct H as [H | [H | []]]; [now left |].
           right. subst k. simpl. intros ->. discriminate.
        -- rewrite prev_falsy in H; [now left |].
           unfold not_token. now rewrite Ht, Hy.
      * rewrite prev_falsy in H; [now left |]. now rewrite Ht.
    + destruct (nextToken c) as [token |] eqn:Ht.
      * destruct (truthy token) eqn:Hy.
        -- rewrite (next_truthy c s Ht Hy) in H. simpl in H.
           apply in_app_or in H. destruct H as [H | [H | []]]; [now left |].
           right. subst k. simpl. intros ->. discriminate.
        -- rewrite next_falsy in H; [now left |].
           unfold not_token. now rewrite Ht, Hy.
      * rewrite next_falsy in H; [now left |]. now rewrite Ht.
Qed.

Lemma prev_page_hop (a b : Page) (s : St) :
  prev_page run_fetcher a b ->
  exists s',
    prev run_fetcher a s = (Some (ok b), a, s') /\
    List.length (calls s') = S (List.length (calls s)).
Proof.
  intros (token & Ht & Hy & Hs).
  rewrite (prev_truthy a s Ht Hy), (Hs (world s)).
  eexists. split; [reflexivity |]. simpl.
  rewrite List.length_app. simpl. lia.
Qed.

Lemma next_page_hop (a b : Page) (s : St) :
  next_page run_fetcher a b ->
  exists s',
    next run_fetcher a s = (Some (ok b), a, s') /\
    List.length (calls s') = S (List.length (calls s)).
Proof.
  intros (token & Ht & Hy & Hs).
  rewrite (next_truthy a s Ht Hy), (Hs (world s)).
  eexists. split; [reflexivity |]. simpl.
  rewrite List.length_app. simpl. lia.
Qed.

(** C7.  In a chain of three pages A, B, C, [B.next()] is a success
    holding a cursor equal to C and [C.prev()] is a success holding a
    cursor equal to B, in whatever state the calls are made. *)
Theorem three_page_round_trip (A B C : Page) (s : St) :
  chain run_fetcher [A; B; C] ->
  fst (fst (next run_fetcher B s)) = Some (ok C) /\
  fst (fst (prev run_fetcher C s)) = Some (ok B).
Proof.
  intros (_ & _ & (HBC & HCB) & _).
  destruct (next_page_hop s HBC) as (s1 & E1 & _).
  destruct (prev_page_hop s HCB) as (s2 & E2 & _).
  now rewrite E1, E2.
Qed.

(** C8 (amended).  With a present and non-empty [prevToken] and a fetcher
    whose answer to that token does not depend on the state of the world,
    two consecutive calls of [prev] invoke the fetcher twice (two new entries
    in the trace, nothing is remembered from the first call) and give the
    same outcome, hence cursors with equal [data] when they succeed. *)
Theorem prev_twice_fetches_twice (c : Page) (s : St) (token : string) :
  prevToken c = Some token ->
  truthy token = true ->
  deterministic run_fetcher (getWithToken c) token ->
  exists r s1 s2,
    prev run_fetcher c s = (Some r, c, s1) /\
    prev run_fetcher c s1 = (Some r, c, s2) /\
    calls s2 =
      calls s ++ [mkCall in_prev (getWithToken c) token r;
                  mkCall in_prev (getWithToken c) token r] /\
    (forall p1 p2,
       fst (fst (prev run_fetcher c s)) = Some (ok p1) ->
       fst (fst (prev run_fetcher c s1)) = Some (ok p2) ->
       data p1 = data p2).
Proof.
  intros Ht Hy Hd.
  exists (fst (run_fetcher (getWithToken c) token (world s))).
  eexists. eexists.
  split; [apply (prev_truthy c s Ht Hy) |].
  split.
  - rewrite (prev_truthy c _ Ht Hy). simpl.
    rewrite (Hd _ (world s)). reflexivity.
  - split.
    + simpl. rewrite <- app_assoc. reflexivity.
    + intros p1 p2. rewrite !(prev_truthy c _ Ht Hy). simpl.
      rewrite (Hd (snd (run_fetcher (getWithToken c) token (world s)))
                 (world s)).
      congruence.
Qed.

(** ** What a hop does to the receiver and to the trace *)

Lemma prev_cases (c : Page) (s : St) :
  prev run_fetcher c s = (None, c, s) \/
  exists k w,
    call_site k = in_prev /\
    prev run_fetcher c s =
      (Some (call_outcome k), c, {| world := w; calls := calls s ++ [k] |}).
Proof.
  destruct (prevToken c) as [token |] eqn:Ht.
  - destruct (truthy token) eqn:Hy.
    + right. rewrite (prev_truthy c s Ht Hy).
      eexists (mkCall in_prev _ _ _), _. split; reflexivity.
    + left. apply prev_falsy. unfold not_token. now rewrite Ht, Hy.
  - left. apply prev_falsy. now rewrite Ht.
Qed.

Lemma next_cases (c : Page) (s : St) :
  next run_fetcher c s = (None, c, s) \/
  exists k w,
    call_site k = in_next /\
    next run_fetcher c s =
      (Some (call_outcome k), c, {| world := w; calls := calls s ++ [k] |}).
Proof.
  destruct (nextToken c) as [token |] eqn:Ht.
  - destruct (truthy token) eqn:Hy.
    + right. rewrite (next_truthy c s Ht Hy).
      eexists (mkCall in_next _ _ _), _. split; reflexivity.
    + left. apply next_falsy. unfold not_token. now rewrite Ht, Hy.
  - left. apply next_falsy. now rewrite Ht.
Qed.

Lemma prev_receiver (c : Page) (s : St) :
  snd (fst (prev run_fetcher c s)) = c.
Proof.
  destruct (prev_cases c s) as [E | (k & w & _ & E)]; now rewrite E.
Qed.

Lemma next_receiver (c : Page) (s : St) :
  snd (fst (next run_fetcher c s)) = c.
Proof.
  destruct (next_cases c s) as [E | (k & w & _ & E)]; now rewrite E.
Qed.

Lemma all_receiver (fuel : nat) (c : Page) (s : St) :
  snd (fst (all run_fetcher fuel c s)) = c.
Proof.
  unfold all, bind.
  pose proof (prev_receiver c s) as Hp.
  destruct (prev run_fetcher c s) as [[p c1] s1]. simpl in Hp. subst c1.
  destruct (while_prev run_fetcher fuel p [data c] s1) as [[acc | e |] s2];
    try reflexivity.
  pose proof (next_receiver c s2) as Hn.
  destruct (next run_fetcher c s2) as [[n c2] s3]. simpl in Hn. subst c2.
  destruct (while_next run_fetcher fuel n acc s3) as [[acc' | e |] s4];
    reflexivity.
Qed.

Lemma run_op_receiver (op : Op) (c : Page) (s : St) :
  fst (run_op run_fetcher op c s) = c.
Proof.
  destruct op as [| | fuel]; unfold run_op, bind, ret.
  - pose proof (prev_receiver c s) as H.
    destruct (prev run_fetcher c s) as [[p c1] s1]. exact H.
  - pose proof (next_receiver c s) as H.
    destruct (next run_fetcher c s) as [[p c1] s1]. exact H.
  - pose proof (all_receiver fuel c s) as H.
    destruct (all run_fetcher fuel c s) as [[p c1] s1]. exact H.
Qed.

(** With cursors passed by value, that is with fetchers that have no way
    to the receiver: whatever sequence of calls of [prev], [next] and [all]
    a client makes on a cursor, in whatever state, the methods hand the
    receiver back with every field as it was. *)
Theorem methods_leave_receiver_unchanged
  (ops : list Op) (fuel : nat) (c : Page) (s : St) :
  fst (run_ops run_fetcher ops c s) = c /\
  snd (fst (prev run_fetcher c s)) = c /\
  snd (fst (next run_fetcher c s)) = c /\
  snd (fst (all run_fetcher fuel c s)) = c.
Proof.
  split; [| auto using prev_receiver, next_receiver, all_receiver].
  revert c s. induction ops as [| op ops IH]; intros c s; simpl.
  - reflexivity.
  - unfold bind. pose proof (run_op_receiver op c s) as H.
    destruct (run_op run_fetcher op c s) as [c1 s1]. simpl in H. subst c1.
    apply IH.
Qed.

(** ** Failures end the walk *)

Lemma ends_at_failure_clean_app (l1 l2 : Trace)
  (returned : option YouTubesJsErrors) :
  ends_at_failure l1 None -> ends_at_failure l2 returned ->
  ends_at_failure (l1 ++ l2) returned.
Proof.
  induction l1 as [| k l1 IH]; simpl; intros H1 H2; [exact H2 |].
  destruct (call_outcome k).
  - now apply IH.
  - destruct H1 as [_ H1]. discriminate.
Qed.

Lemma ends_at_failure_split (l l1 l2 : Trace) (k : Call _ _ _ _ _)
  (returned : option YouTubesJsErrors) (e : YouTubesJsErrors) :
  ends_at_failure l returned ->
  l = l1 ++ k :: l2 -> call_outcome k = err e ->
  l2 = [] /\ returned = Some e.
Proof.
  intros H -> Hk. induction l1 as [| k1 l1 IH]; simpl in H.
  - rewrite Hk in H. exact H.
  - destruct (call_outcome k1).
    + now apply IH.
    + destruct H as [H _]. now destruct l1.
Qed.

Lemma ends_at_failure_none_clean (l : Trace) (k : Call _ _ _ _ _) :
  ends_at_failure l None -> In k l -> exists p, call_outcome k = ok p.
Proof.
  intros H Hin. destruct (call_outcome k) as [p | e] eqn:Hk; [now exists p |].
  apply in_split in Hin. destruct Hin as (l1 & l2 & ->).
  destruct (@ends_at_failure_split _ l1 l2 k None e H eq_refl Hk) as [_ Habs].
  discriminate.
Qed.

Lemma while_prev_trace (fuel : nat) :
  forall (p : option (Outcome T number YouTubesJsErrors Logger Fetcher))
         (acc : list T) (s : St),
  exists new,
    calls (snd (while_prev run_fetcher fuel p acc s)) = calls s ++ new /\
    Forall (fun k => call_site k = in_prev) new /\
    loop_trace p new
      (returned_error (fst (while_prev run_fetcher fuel p acc s))).
Proof.
  induction fuel as [| fuel IH]; intros [[v | e] |] acc s; simpl;
    try (exists []; rewrite app_nil_r; repeat split; auto; fail).
  unfold bind.
  destruct (prev_cases v s) as [E | (k & w & Hsite & E)]; rewrite E.
  - destruct (IH None (data v :: acc) s) as (new & Hc & Hs & Ht).
    exists new. auto.
  - destruct (IH (Some (call_outcome k)) (data v :: acc)
                {| world := w; calls := calls s ++ [k] |})
      as (new & Hc & Hs & Ht).
    exists (k :: new). split; [| split].
    + rewrite Hc. simpl. now rewrite <- app_assoc.
    + now constructor.
    + simpl. unfold loop_trace in Ht.
      destruct (call_outcome k); [exact Ht |].
      destruct Ht as [-> Ht]. auto.
Qed.

Lemma while_next_trace (fuel : nat) :
  forall (p : option (Outcome T number YouTubesJsErrors Logger Fetcher))
         (acc : list T) (s : St),
  exists new,
    calls (snd (while_next run_fetcher fuel p acc s)) = calls s ++ new /\
    Forall (fun k => call_site k = in_next) new /\
    loop_trace p new
      (returned_error (fst (while_next run_fetcher fuel p acc s))).
Proof.
  induction fuel as [| fuel IH]; intros [[v | e] |] acc s; simpl;
    try (exists []; rewrite app_nil_r; repeat split; auto; fail).
  unfold bind.
  destruct (next_cases v s) as [E | (k & w & Hsite & E)]; rewrite E.
  - destruct (IH None (acc ++ [data v]) s) as (new & Hc & Hs & Ht).
    exists new. auto.
  - destruct (IH (Some (call_outcome k)) (acc ++ [data v])
                {| world := w; calls := calls s ++ [k] |})
      as (new & Hc & Hs & Ht).
    exists (k :: new). split; [| split].
    + rewrite Hc. simpl. now rewrite <- app_assoc.
    + now constructor.
    + simpl. unfold loop_trace in Ht.
      destruct (call_outcome k); [exact Ht |].
      destruct Ht as [-> Ht]. auto.
Qed.

(** The backward half of [all]: the hop [this.prev()] and the first loop. *)
Lemma backward_trace (fuel : nat) (c : Page) (acc : list T) (s : St) :
  exists p s1 new,
    prev run_fetcher c s = (p, c, s1) /\
    calls (snd (while_prev run_fetcher fuel p acc s1)) = calls s ++ new /\
    Forall (fun k => call_site k = in_prev) new /\
    ends_at_failure new
      (returned_error (fst (while_prev run_fetcher fuel p acc s1))).
Proof.
  destruct (prev_cases c s) as [E | (k & w & Hsite & E)]; rewrite E.
  - destruct (while_prev_trace fuel None acc s) as (new & Hc & Hs & Ht).
    exists None, s, new. auto.
  - destruct (while_prev_trace fuel (Some (call_outcome k)) acc
                {| world := w; calls := calls s ++ [k] |})
      as (new & Hc & Hs & Ht).
    eexists _, _, (k :: new). split; [reflexivity |]. split; [| split].
    + rewrite Hc. simpl. now rewrite <- app_assoc.
    + now constructor.
    + simpl. unfold loop_trace in Ht.
      destruct (call_outcome k); [exact Ht |].
      destruct Ht as [-> Ht]. auto.
Qed.

(** The forward half of [all]: the hop [this.next()] and the second loop. *)
Lemma forward_trace (fuel : nat) (c : Page) (acc : list T) (s : St) :
  exists p s1 new,
    next run_fetcher c s = (p, c, s1) /\
    calls (snd (while_next run_fetcher fuel p acc s1)) = calls s ++ new /\
    Forall (fun k => call_site k = in_next) new /\
    ends_at_failure new
      (returned_error (fst (while_next run_fetcher fuel p acc s1))).
Proof.
  destruct (next_cases c s) as [E | (k & w & Hsite & E)]; rewrite E.
  - destruct (while_next_trace fuel None acc s) as (new & Hc & Hs & Ht).
    exists None, s, new. auto.
  - destruct (while_next_trace fuel (Some (call_outcome k)) acc
                {| world := w; calls := calls s ++ [k] |})
      as (new & Hc & Hs & Ht).
    eexists _, _, (k :: new). split; [reflexivity |]. split; [| split].
    + rewrite Hc. simpl. now rewrite <- app_assoc.
    + now constructor.
    + simpl. unfold loop_trace in Ht.
      destruct (call_outcome k); [exact Ht |].
      destruct Ht as [-> Ht]. auto.
Qed.

(** The trace of [all]: the invocations made by the backward walk, then
    those made by the forward walk, which is empty unless the backward walk
    fell through. *)
Lemma all_trace (fuel : nat) (c : Page) (s : St) :
  exists back forth,
    calls (snd (all run_fetcher fuel c s)) = calls s ++ back ++ forth /\
    Forall (fun k => call_site k = in_prev) back /\
    Forall (fun k => call_site k = in_next) forth /\
    ends_at_failure (back ++ forth)
      (failure_of (fst (fst (all run_fetcher fuel c s)))) /\
    (ends_at_failure back None \/ forth = []).
Proof.
  unfold all, bind.
  destruct (backward_trace fuel c [data c] s)
    as (p & s1 & back & E & Hc & Hs & Ht).
  rewrite E.
  destruct (while_prev run_fetcher fuel p [data c] s1) as [[acc | e |] s2];
    simpl in Hc, Ht.
  - destruct (forward_trace fuel c acc s2)
      as (n & s3 & forth & E' & Hc' & Hs' & Ht').
    rewrite E'.
    exists back, forth.
    assert (Hcalls : calls s2 ++ forth = calls s ++ back ++ forth)
      by (rewrite Hc; now rewrite <- app_assoc).
    destruct (while_next run_fetcher fuel n acc s3) as [[acc' | e |] s4];
      simpl in Hc', Ht' |- *; rewrite Hc', Hcalls;
      repeat split; auto using ends_at_failure_clean_app.
  - exists back, []. rewrite !app_nil_r. simpl. repeat split; auto.
  - exists back, []. rewrite !app_nil_r. simpl. repeat split; auto.
Qed.

Lemma failure_of_some (r : option (Result (list T) YouTubesJsErrors))
  (e : YouTubesJsErrors) :
  failure_of r = Some e -> r = Some (err e).
Proof.
  destruct r as [[l | e'] |]; simpl; intros H; try discriminate.
  now injection H as ->.
Qed.

(** C2.  During [all] the trace only grows: first by the invocations
    [back] made walking backward, then by the invocations [forth] made
    walking forward.  If one of these invocations, [k], was answered with a
    failure [e], then [all] answers exactly [err e] (whatever the fuel, and
    carrying no payload), [k] is the last invocation of the run, and if
    [k] was made walking backward then no forward fetch took place. *)
Theorem all_first_failure_wins (fuel : nat) (c : Page) (s : St) :
  exists back forth,
    calls (snd (all run_fetcher fuel c s)) = calls s ++ back ++ forth /\
    Forall (fun k => call_site k = in_prev) back /\
    Forall (fun k => call_site k = in_next) forth /\
    forall l1 k l2 e,
      back ++ forth = l1 ++ k :: l2 ->
      call_outcome k = err e ->
      fst (fst (all run_fetcher fuel c s)) = Some (err e) /\
      l2 = [] /\
      (call_site k = in_prev -> forth = []).
Proof.
  destruct (all_trace fuel c s) as (back & forth & Hc & Hb & Hf & Ht & Hbf).
  exists back, forth. repeat (split; [assumption |]).
  intros l1 k l2 e Hnew Hk.
  destruct (@ends_at_failure_split _ l1 l2 k _ e Ht Hnew Hk) as [-> Hr].
  split; [now apply failure_of_some | split; [reflexivity |]].
  intros Hsite.
  assert (Hkin : In k (back ++ forth))
    by (rewrite Hnew; apply in_or_app; right; now left).
  apply in_app_or in Hkin. destruct Hkin as [Hkin | Hkin].
  - destruct Hbf as [Hclean | ->]; [| reflexivity].
    destruct (@ends_at_failure_none_clean back k Hclean Hkin) as (p & Hp).
    congruence.
  - rewrite Forall_forall in Hf. apply Hf in Hkin. congruence.
Qed.

(** ** Walking a chain of pages *)

Lemma while_prev_collects (bs : list Page) :
  forall (fuel : nat) (c : Page) (acc : list T) (s : St),
    pages_before run_fetcher c bs ->
    List.length bs <= fuel ->
    exists p s1 s',
      prev run_fetcher c s = (p, c, s1) /\
      while_prev run_fetcher fuel p acc s1 =
        (Fallthrough (map (@data _ _ _ _) (rev bs) ++ acc), s') /\
      List.length (calls s') = List.length (calls s) + List.length bs.
Proof.
  induction bs as [| b bs IH]; intros fuel c acc s Hb Hfuel; simpl in Hb.
  - exists None, s, s. rewrite (prev_falsy c s Hb).
    split; [reflexivity |]. split; [now destruct fuel | simpl; lia].
  - destruct Hb as [Hcb Hb].
    destruct (prev_page_hop s Hcb) as (s1 & E & Hlen).
    destruct fuel as [| fuel]; [simpl in Hfuel; lia |].
    destruct (IH fuel b (data b :: acc) s1 Hb) as (p & s2 & s' & E' & Hw & Hl).
    { simpl in Hfuel. lia. }
    exists (Some (ok b)), s1, s'. split; [exact E |]. split.
    + simpl. unfold bind. rewrite E', Hw.
      rewrite map_app, <- app_assoc. reflexivity.
    + simpl. lia.
Qed.

Lemma while_next_collects (fs : list Page) :
  forall (fuel : nat) (c : Page) (acc : list T) (s : St),
    pages_after run_fetcher c fs ->
    List.length fs <= fuel ->
    exists p s1 s',
      next run_fetcher c s = (p, c, s1) /\
      while_next run_fetcher fuel p acc s1 =
        (Fallthrough (acc ++ map (@data _ _ _ _) fs), s') /\
      List.length (calls s') = List.length (calls s) + List.length fs.
Proof.
  induction fs as [| b fs IH]; intros fuel c acc s Hb Hfuel; simpl in Hb.
  - exists None, s, s. rewrite (next_falsy c s Hb).
    split; [reflexivity |]. split.
    + simpl. rewrite app_nil_r. now destruct fuel.
    + simpl; lia.
  - destruct Hb as [Hcb Hb].
    destruct (next_page_hop s Hcb) as (s1 & E & Hlen).
    destruct fuel as [| fuel]; [simpl in Hfuel; lia |].
    destruct (IH fuel b (acc ++ [data b]) s1 Hb) as (p & s2 & s' & E' & Hw & Hl).
    { simpl in Hfuel. lia. }
    exists (Some (ok b)), s1, s'. split; [exact E |]. split.
    + simpl. unfold bind. rewrite E', Hw.
      rewrite <- app_assoc. reflexivity.
    + simpl. lia.
Qed.

(** From any page of a collection, [all] gathers the payloads of the
    pages before it (farthest first), its own, and those of the pages
    after it, with one fetch per other page. *)
Lemma all_collects (bs fs : list Page) (fuel : nat) (c : Page) (s : St) :
  pages_before run_fetcher c bs ->
  pages_after run_fetcher c fs ->
  List.length bs <= fuel ->
  List.length fs <= fuel ->
  exists s',
    all run_fetcher fuel c s =
      (Some (ok (map (@data _ _ _ _) (rev bs) ++
                 data c :: map (@data _ _ _ _) fs)), c, s') /\
    List.length (calls s') =
      List.length (calls s) + List.length bs + List.length fs.
Proof.
  intros Hb Hf Hlb Hlf.
  destruct (@while_prev_collects bs fuel c [data c] s Hb Hlb)
    as (p & s1 & s2 & E1 & W1 & L1).
  destruct (@while_next_collects fs fuel c
              (map (@data _ _ _ _) (rev bs) ++ [data c]) s2 Hf Hlf)
    as (n & s3 & s4 & E2 & W2 & L2).
  exists s4. split; [| lia].
  unfold all, bind. rewrite E1, W1, E2, W2. simpl.
  rewrite <- app_assoc. reflexivity.
Qed.

Lemma chain_from_pages_after (l : list Page) :
  forall a, chain_from run_fetcher a l -> pages_after run_fetcher a l.
Proof.
  induction l as [| b l IH]; intros a H; simpl in *; [exact H |].
  destruct H as [[Hn _] H]. auto.
Qed.

Lemma chain_from_split (l1 : list Page) :
  forall (a c : Page) (l2 bs0 : list Page),
    chain_from run_fetcher a (l1 ++ c :: l2) ->
    pages_before run_fetcher a bs0 ->
    pages_before run_fetcher c (rev l1 ++ a :: bs0) /\
    pages_after run_fetcher c l2.
Proof.
  induction l1 as [| x l1 IH]; intros a c l2 bs0 H Ha; simpl in H.
  - destruct H as [[_ Hp] H]. simpl.
    auto using chain_from_pages_after.
  - destruct H as [[_ Hp] H].
    destruct (IH x c l2 (a :: bs0) H) as [Hb Hf]; [simpl; auto |].
    split; [| exact Hf]. simpl. now rewrite <- app_assoc.
Qed.

Lemma chain_split (before after : list Page) (c : Page) :
  chain run_fetcher (before ++ c :: after) ->
  pages_before run_fetcher c (rev before) /\
  pages_after run_fetcher c after.
Proof.
  destruct before as [| a l1]; simpl.
  - intros [Hp H]. auto using chain_from_pages_after.
  - intros [Hp H]. apply (@chain_from_split l1 a c after [] H Hp).
Qed.

(** C1.  In a chain of N pages, N >= 3, [all] called on a page that has
    pages on both sides answers [ok] with exactly N payloads, one per page
    and as they are: those of the pages before it in page order, then its
    own, then those of the pages after it; it makes N - 1 fetches.  Fuel
    N is enough. *)
Theorem all_gathers_chain
  (before after : list Page) (c : Page) (fuel : nat) (s : St) :
  chain run_fetcher (before ++ c :: after) ->
  before <> [] -> after <> [] ->
  List.length (before ++ c :: after) <= fuel ->
  exists result s',
    all run_fetcher fuel c s = (Some (ok result), c, s') /\
    result =
      map (@data _ _ _ _) before ++ data c :: map (@data _ _ _ _) after /\
    List.length result = List.length (before ++ c :: after) /\
    3 <= List.length result /\
    List.length (calls s') + 1 = List.length (calls s) + List.length result.
Proof.
  intros Hchain Hb Ha Hfuel.
  destruct (@chain_split before after c Hchain) as [Hpb Hpa].
  rewrite List.length_app in Hfuel. simpl in Hfuel.
  destruct (@all_collects (rev before) after fuel c s Hpb Hpa)
    as (s' & E & L).
  { rewrite List.length_rev. lia. }
  { lia. }
  rewrite rev_involutive in E. rewrite List.length_rev in L.
  eexists _, s'. split; [exact E |]. split; [reflexivity |].
  rewrite !List.length_app. simpl. rewrite !List.length_map.
  destruct before; [congruence |]. destruct after; [congruence |].
  simpl in *. repeat split; lia.
Qed.

(** ** The run of [all] in general *)

Lemma prev_hop (c : Page) (s : St) :
  (not_token (prevToken c) = true /\ prev run_fetcher c s = (None, c, s)) \/
  (exists token,
     prevToken c = Some token /\ truthy token = true /\
     prev run_fetcher c s =
       (Some (fst (run_fetcher (getWithToken c) token (world s))), c,
        {| world := snd (run_fetcher (getWithToken c) token (world s));
           calls := calls s ++
                    [mkCall in_prev (getWithToken c) token
                       (fst (run_fetcher (getWithToken c) token (world s)))]
        |})).
Proof.
  destruct (prevToken c) as [token |] eqn:Ht.
  - destruct (truthy token) eqn:Hy.
    + right. exists token. split; [reflexivity |]. split; [exact Hy |].
      now apply prev_truthy.
    + left. assert (H : not_token (prevToken c) = true)
        by (unfold not_token; now rewrite Ht, Hy).
      split; [now rewrite <- Ht | now apply prev_falsy].
  - left. assert (H : not_token (prevToken c) = true) by now rewrite Ht.
    split; [reflexivity | now apply prev_falsy].
Qed.

Lemma next_hop (c : Page) (s : St) :
  (not_token (nextToken c) = true /\ next run_fetcher c s = (None, c, s)) \/
  (exists token,
     nextToken c = Some token /\ truthy token = true /\
     next run_fetcher c s =
       (Some (fst (run_fetcher (getWithToken c) token (world s))), c,
        {| world := snd (run_fetcher (getWithToken c) token (world s));
           calls := calls s ++
                    [mkCall in_next (getWithToken c) token
                       (fst (run_fetcher (getWithToken c) token (world s)))]
        |})).
Proof.
  destruct (nextToken c) as [token |] eqn:Ht.
  - destruct (truthy token) eqn:Hy.
    + right. exists token. split; [reflexivity |]. split; [exact Hy |].
      now apply next_truthy.
    + left. assert (H : not_token (nextToken c) = true)
        by (unfold not_token; now rewrite Ht, Hy).
      split; [now rewrite <- Ht | now apply next_falsy].
  - left. assert (H : not_token (nextToken c) = true) by now rewrite Ht.
    split; [reflexivity | now apply next_falsy].
Qed.

Lemma while_prev_no_page (fuel : nat) (acc : list T) (s : St) :
  while_prev run_fetcher fuel None acc s = (Fallthrough acc, s).
Proof. now destruct fuel. Qed.

Lemma while_prev_failed (fuel : nat) (e : YouTubesJsErrors)
  (acc : list T) (s : St) :
  while_prev run_fetcher fuel (Some (err e)) acc s = (Returned e, s).
Proof. now destruct fuel. Qed.

Lemma while_next_no_page (fuel : nat) (acc : list T) (s : St) :
  while_next run_fetcher fuel None acc s = (Fallthrough acc, s).
Proof. now destruct fuel. Qed.

Lemma while_next_failed (fuel : nat) (e : YouTubesJsErrors)
  (acc : list T) (s : St) :
  while_next run_fetcher fuel (Some (err e)) acc s = (Returned e, s).
Proof. now destruct fuel. Qed.

(** The first loop entered with a page [v]: the invocations it makes are
    a backward walk from [v]; if it falls through, the array holds the
    payloads of the pages met, the farthest first, then that of [v], and the
    walk stands on a page without a usable previous token; if it returns,
    the error is the answer to its last invocation. *)
Lemma while_prev_run (fuel : nat) :
  forall (v : Page) (acc : list T) (s : St),
  exists new,
    calls (snd (while_prev run_fetcher fuel (Some (ok v)) acc s)) =
      calls s ++ new /\
    follows in_prev (@prevToken _ _ _ _) v new /\
    match fst (while_prev run_fetcher fuel (Some (ok v)) acc s) with
    | Fallthrough r =>
        r = rev (payloads new) ++ data v :: acc /\
        ends_at_failure new None /\
        not_token (prevToken (last_page v new)) = true
    | Returned e => exists l k, new = l ++ [k] /\ call_outcome k = err e
    | OutOfFuel => True
    end.
Proof.
  induction fuel as [| fuel IH]; intros v acc s.
  - exists []. simpl. rewrite app_nil_r. auto.
  - simpl. unfold bind.
    destruct (prev_hop v s) as [[Hstop E] | (token & Ht & Hy & E)]; rewrite E;
      cbv beta iota zeta.
    + exists []. rewrite while_prev_no_page. simpl. rewrite app_nil_r. auto.
    + destruct (fst (run_fetcher (getWithToken v) token (world s)))
        as [v' | e].
      * set (s1 := {| world := _; calls := _ |}).
        destruct (IH v' (data v :: acc) s1) as (new & Hc & Hf & Hx).
        unfold Outcome in *.
        exists (mkCall in_prev (getWithToken v) token (ok v') :: new).
        split; [| split].
        -- rewrite Hc. unfold s1. simpl. now rewrite <- app_assoc.
        -- simpl. auto.
        -- destruct (fst (while_prev run_fetcher fuel (Some (ok v'))
                            (data v :: acc) s1)) as [r' | e |]; [| | exact I].
           ++ destruct Hx as (-> & Hclean & Hlast). simpl.
              rewrite <- app_assoc. auto.
           ++ destruct Hx as (l & k & -> & Hk).
              exists (mkCall in_prev (getWithToken v) token (ok v') :: l), k.
              auto.
      * exists [mkCall in_prev (getWithToken v) token (err e)].
        rewrite while_prev_failed. simpl. repeat split; auto.
        exists [], (mkCall in_prev (getWithToken v) token (err e)). auto.
Qed.

Lemma while_next_run (fuel : nat) :
  forall (v : Page) (acc : list T) (s : St),
  exists new,
    calls (snd (while_next run_fetcher fuel (Some (ok v)) acc s)) =
      calls s ++ new /\
    follows in_next (@nextToken _ _ _ _) v new /\
    match fst (while_next run_fetcher fuel (Some (ok v)) acc s) with
    | Fallthrough r =>
        r = acc ++ data v :: payloads new /\
        ends_at_failure new None /\
        not_token (nextToken (last_page v new)) = true
    | Returned e => exists l k, new = l ++ [k] /\ call_outcome k = err e
    | OutOfFuel => True
    end.
Proof.
  induction fuel as [| fuel IH]; intros v acc s.
  - exists []. simpl. rewrite app_nil_r. auto.
  - simpl. unfold bind.
    destruct (next_hop v s) as [[Hstop E] | (token & Ht & Hy & E)]; rewrite E;
      cbv beta iota zeta.
    + exists []. rewrite while_next_no_page. simpl. rewrite app_nil_r. auto.
    + destruct (fst (run_fetcher (getWithToken v) token (world s)))
        as [v' | e].
      * set (s1 := {| world := _; calls := _ |}).
        destruct (IH v' (acc ++ [data v]) s1) as (new & Hc & Hf & Hx).
        unfold Outcome in *.
        exists (mkCall in_next (getWithToken v) token (ok v') :: new).
        split; [| split].
        -- rewrite Hc. unfold s1. simpl. now rewrite <- app_assoc.
        -- simpl. auto.
        -- destruct (fst (while_next run_fetcher fuel (Some (ok v'))
                            (acc ++ [data v]) s1)) as [r' | e |]; [| | exact I].
           ++ destruct Hx as (-> & Hclean & Hlast). simpl.
              rewrite <- app_assoc. auto.
           ++ destruct Hx as (l & k & -> & Hk).
              exists (mkCall in_next (getWithToken v) token (ok v') :: l), k.
              auto.
      * exists [mkCall in_next (getWithToken v) token (err e)].
        rewrite while_next_failed. simpl. repeat split; auto.
        exists [], (mkCall in_next (getWithToken v) token (err e)). auto.
Qed.

(** The backward half of [all] in general: the hop [this.prev()] and the
    first loop, entered with the array [acc]. *)
Lemma backward_run (fuel : nat) (c : Page) (acc : list T) (s : St) :
  exists p s1 back,
    prev run_fetcher c s = (p, c, s1) /\
    calls (snd (while_prev run_fetcher fuel p acc s1)) = calls s ++ back /\
    follows in_prev (@prevToken _ _ _ _) c back /\
    match fst (while_prev run_fetcher fuel p acc s1) with
    | Fallthrough r =>
        r = rev (payloads back) ++ acc /\
        ends_at_failure back None /\
        not_token (prevToken (last_page c back)) = true
    | Returned e => exists l k, back = l ++ [k] /\ call_outcome k = err e
    | OutOfFuel => True
    end.
Proof.
  destruct (prev_hop c s) as [[Hstop E] | (token & Ht & Hy & E)]; rewrite E.
  - exists None, s, []. rewrite while_prev_no_page. simpl.
    rewrite app_nil_r. repeat split; auto.
  - destruct (fst (run_fetcher (getWithToken c) token (world s)))
      as [v | e].
    + set (s1 := {| world := _; calls := _ |}).
      destruct (while_prev_run fuel v acc s1) as (new & Hc & Hf & Hx).
      exists (Some (ok v)), s1,
        (mkCall in_prev (getWithToken c) token (ok v) :: new).
      unfold Outcome in *.
      split; [reflexivity |]. split; [| split].
      * rewrite Hc. unfold s1. simpl. now rewrite <- app_assoc.
      * simpl. auto.
      * destruct (fst (while_prev run_fetcher fuel (Some (ok v)) acc s1))
          as [r' | e |]; [| | exact I].
        -- destruct Hx as (-> & Hclean & Hlast). simpl.
           rewrite <- app_assoc. auto.
        -- destruct Hx as (l & k & -> & Hk).
           exists (mkCall in_prev (getWithToken c) token (ok v) :: l), k.
           auto.
    + eexists (Some (err e)), _,
        [mkCall in_prev (getWithToken c) token (err e)].
      rewrite while_prev_failed. simpl. repeat split; auto.
      exists [], (mkCall in_prev (getWithToken c) token (err e)). auto.
Qed.

(** The forward half of [all] in general. *)
Lemma forward_run (fuel : nat) (c : Page) (acc : list T) (s : St) :
  exists p s1 forth,
    next run_fetcher c s = (p, c, s1) /\
    calls (snd (while_next run_fetcher fuel p acc s1)) = calls s ++ forth /\
    follows in_next (@nextToken _ _ _ _) c forth /\
    match fst (while_next run_fetcher fuel p acc s1) with
    | Fallthrough r =>
        r = acc ++ payloads forth /\
        ends_at_failure forth None /\
        not_token (nextToken (last_page c forth)) = true
    | Returned e => exists l k, forth = l ++ [k] /\ call_outcome k = err e
    | OutOfFuel => True
    end.
Proof.
  destruct (next_hop c s) as [[Hstop E] | (token & Ht & Hy & E)]; rewrite E.
  - exists None, s, []. rewrite while_next_no_page. simpl.
    rewrite !app_nil_r. repeat split; auto.
  - destruct (fst (run_fetcher (getWithToken c) token (world s)))
      as [v | e].
    + set (s1 := {| world := _; calls := _ |}).
      destruct (while_next_run fuel v acc s1) as (new & Hc & Hf & Hx).
      exists (Some (ok v)), s1,
        (mkCall in_next (getWithToken c) token (ok v) :: new).
      unfold Outcome in *.
      split; [reflexivity |]. split; [| split].
      * rewrite Hc. unfold s1. simpl. now rewrite <- app_assoc.
      * simpl. auto.
      * destruct (fst (while_next run_fetcher fuel (Some (ok v)) acc s1))
          as [r' | e |]; [| | exact I].
        -- destruct Hx as (-> & Hclean & Hlast). simpl. auto.
        -- destruct Hx as (l & k & -> & Hk).
           exists (mkCall in_next (getWithToken c) token (ok v) :: l), k.
           auto.
    + eexists (Some (err e)), _,
        [mkCall in_next (getWithToken c) token (err e)].
      rewrite while_next_failed. simpl. repeat split; auto.
      exists [], (mkCall in_next (getWithToken c) token (err e)). auto.
Qed.

(** The run of [all] in general: a backward walk, then a forward walk,
    both from the receiver, and what the answer says about them. *)
Lemma all_run (fuel : nat) (c : Page) (s : St) :
  exists back forth,
    calls (snd (all run_fetcher fuel c s)) = calls s ++ back ++ forth /\
    follows in_prev (@prevToken _ _ _ _) c back /\
    follows in_next (@nextToken _ _ _ _) c forth /\
    match fst (fst (all run_fetcher fuel c s)) with
    | Some (ok r) =>
        r = rev (payloads back) ++ data c :: payloads forth /\
        ends_at_failure back None /\
        ends_at_failure forth None /\
        not_token (prevToken (last_page c back)) = true /\
        not_token (nextToken (last_page c forth)) = true
    | Some (err e) =>
        exists l k, back ++ forth = l ++ [k] /\ call_outcome k = err e
    | None => True
    end.
Proof.
  unfold all, bind.
  destruct (backward_run fuel c [data c] s)
    as (p & s1 & back & E & Hc & Hf & Hx).
  rewrite E.
  destruct (while_prev run_fetcher fuel p [data c] s1) as [[acc | e |] s2];
    simpl in Hc, Hx.
  - destruct Hx as (-> & Hclean & Hlast).
    destruct (forward_run fuel c (rev (payloads back) ++ [data c]) s2)
      as (n & s3 & forth & E' & Hc' & Hf' & Hx').
    rewrite E'.
    exists back, forth.
    assert (Hcalls : calls s2 ++ forth = calls s ++ back ++ forth)
      by (rewrite Hc; now rewrite <- app_assoc).
    destruct (while_next run_fetcher fuel n
                (rev (payloads back) ++ [data c]) s3) as [[acc' | e |] s4];
      simpl in Hc', Hx' |- *; rewrite Hc', Hcalls;
      repeat (split; [assumption || reflexivity |]).
    + destruct Hx' as (-> & Hclean' & Hlast').
      rewrite <- app_assoc. simpl. auto.
    + destruct Hx' as (l & k & -> & Hk).
      exists (back ++ l), k. now rewrite app_assoc.
    + exact I.
  - exists back, []. rewrite !app_nil_r. simpl.
    repeat (split; [assumption || reflexivity |]). exact Hx.
  - exists back, []. rewrite !app_nil_r. simpl.
    repeat (split; [assumption || reflexivity |]). exact I.
Qed.

Lemma payloads_clean_length (l : Trace) :
  ends_at_failure l None -> List.length (payloads l) = List.length l.
Proof.
  induction l as [| k l IH]; simpl; [reflexivity |].
  destruct (call_outcome k); simpl.
  - intros H. now rewrite IH.
  - intros [_ H]. discriminate.
Qed.

Lemma follows_site (site : Site)
  (token_of : Page -> option string) (l : Trace) :
  forall c,
    follows site token_of c l -> Forall (fun k => call_site k = site) l.
Proof.
  induction l as [| k l IH]; intros c H; [constructor |].
  simpl in H. destruct H as (Hs & _ & _ & _ & H).
  constructor; [exact Hs |].
  destruct (call_outcome k) as [p | e].
  - now apply (IH p).
  - subst l. constructor.
Qed.

(** X1.  When [all] answers [ok result], [result] holds the payload of
    the receiver and those of the pages the fetchers answered with, in
    page order: those fetched walking backward in reverse order of
    fetching, the receiver's, those fetched walking forward.  It has one
    entry more than fetches were made, so it is never empty. *)
Theorem all_answers_fetched_payloads
  (fuel : nat) (c : Page) (s : St) (result : list T) :
  fst (fst (all run_fetcher fuel c s)) = Some (ok result) ->
  exists back forth,
    calls (snd (all run_fetcher fuel c s)) = calls s ++ back ++ forth /\
    Forall (fun k => call_site k = in_prev) back /\
    Forall (fun k => call_site k = in_next) forth /\
    result = rev (payloads back) ++ data c :: payloads forth /\
    List.length result = S (List.length back + List.length forth).
Proof.
  intros Hr.
  destruct (all_run fuel c s) as (back & forth & Hc & Hb & Hf & Hx).
  rewrite Hr in Hx. destruct Hx as (-> & Hcb & Hcf & _).
  exists back, forth. split; [exact Hc |].
  split; [exact (follows_site _ _ _ _ Hb) |].
  split; [exact (follows_site _ _ _ _ Hf) |].
  split; [reflexivity |].
  rewrite List.length_app, List.length_rev. simpl.
  rewrite !payloads_clean_length by assumption. lia.
Qed.

(** X2.  The fetches of [all] follow the tokens: walking backward, the
    first fetch is made with the receiver's fetcher and [prevToken], each
    later one with the fetcher and [prevToken] of the page the fetch before
    it was answered with; then, walking forward, the first fetch is again
    made with the receiver's own fetcher and [nextToken], and each later
    one with those of the page fetched before it.  No empty token is ever
    passed, and nothing is fetched after a failure: a fetch that failed is
    the last of the whole run, backward and forward walk taken together. *)
Theorem all_follows_the_tokens (fuel : nat) (c : Page) (s : St) :
  exists back forth,
    calls (snd (all run_fetcher fuel c s)) = calls s ++ back ++ forth /\
    follows in_prev (@prevToken _ _ _ _) c back /\
    follows in_next (@nextToken _ _ _ _) c forth /\
    (forall l1 k l2 e,
       back ++ forth = l1 ++ k :: l2 ->
       call_outcome k = err e ->
       l2 = []).
Proof.
  destruct (all_run fuel c s) as (back & forth & Hc & Hb & Hf & _).
  destruct (all_trace fuel c s) as (b & f & Hc' & _ & _ & Ht & _).
  assert (Hsame : b ++ f = back ++ forth).
  { rewrite Hc in Hc'. apply app_inv_head in Hc'. now symmetry. }
  rewrite Hsame in Ht.
  exists back, forth. repeat (split; [assumption |]).
  intros l1 k l2 e Hsplit Hk.
  now destruct (@ends_at_failure_split _ l1 l2 k _ e Ht Hsplit Hk).
Qed.

(** X3.  [all] makes up no error of its own: when it answers [err e],
    the last fetch of the run was made and was answered with [err e]. *)
Theorem all_error_is_last_answer
  (fuel : nat) (c : Page) (s : St) (e : YouTubesJsErrors) :
  fst (fst (all run_fetcher fuel c s)) = Some (err e) ->
  exists l k,
    calls (snd (all run_fetcher fuel c s)) = calls s ++ l ++ [k] /\
    call_outcome k = err e.
Proof.
  intros Hr.
  destruct (all_run fuel c s) as (back & forth & Hc & _ & _ & Hx).
  rewrite Hr in Hx. destruct Hx as (l & k & Hl & Hk).
  exists l, k. split; [| exact Hk]. now rewrite Hc, Hl.
Qed.

(** X4.  [all] answers [ok] only after walking to both ends: the page on
    which its backward walk stands at the end holds no usable [prevToken],
    the page on which its forward walk stands holds no usable [nextToken],
    and no fetch of the run failed. *)
Theorem all_ok_reaches_both_ends
  (fuel : nat) (c : Page) (s : St) (result : list T) :
  fst (fst (all run_fetcher fuel c s)) = Some (ok result) ->
  exists back forth,
    calls (snd (all run_fetcher fuel c s)) = calls s ++ back ++ forth /\
    follows in_prev (@prevToken _ _ _ _) c back /\
    follows in_next (@nextToken _ _ _ _) c forth /\
    not_token (prevToken (last_page c back)) = true /\
    not_token (nextToken (last_page c forth)) = true /\
    (forall k, In k (back ++ forth) -> exists p, call_outcome k = ok p).
Proof.
  intros Hr.
  destruct (all_run fuel c s) as (back & forth & Hc & Hb & Hf & Hx).
  rewrite Hr in Hx. destruct Hx as (_ & Hcb & Hcf & Hlb & Hlf).
  exists back, forth. repeat (split; [assumption |]).
  intros k Hin. apply in_app_or in Hin. destruct Hin as [Hin | Hin].
  - exact (@ends_at_failure_none_clean back k Hcb Hin).
  - exact (@ends_at_failure_none_clean forth k Hcf Hin).
Qed.

(** ** Edges of the walk *)

(** X5.  From any page of a chain of N >= 1 pages, the first, the last
    and the only page included, [all] with fuel N answers [ok] with the N
    payloads in page order and makes N - 1 fetches; on a single page it
    fetches nothing. *)
Theorem all_from_any_page
  (before after : list Page) (c : Page) (fuel : nat) (s : St) :
  chain run_fetcher (before ++ c :: after) ->
  List.length (before ++ c :: after) <= fuel ->
  exists s',
    all run_fetcher fuel c s =
      (Some (ok (map (@data _ _ _ _) (before ++ c :: after))), c, s') /\
    List.length (calls s') + 1 =
      List.length (calls s) + List.length (before ++ c :: after).
Proof.
  intros Hchain Hfuel.
  destruct (@chain_split before after c Hchain) as [Hpb Hpa].
  rewrite List.length_app in Hfuel. simpl in Hfuel.
  destruct (@all_collects (rev before) after fuel c s Hpb Hpa)
    as (s' & E & L).
  { rewrite List.length_rev. lia. }
  { lia. }
  rewrite rev_involutive in E. rewrite List.length_rev in L.
  exists s'. split.
  - rewrite E, map_app. reflexivity.
  - rewrite List.length_app. simpl. lia.
Qed.

Lemma while_prev_circle (P : Page -> Prop) (fuel : nat) :
  closed_backward run_fetcher P ->
  forall (v : Page) (acc : list T) (s : St),
    P v ->
    fst (while_prev run_fetcher fuel (Some (ok v)) acc s) = OutOfFuel /\
    List.length (calls (snd (while_prev run_fetcher fuel (Some (ok v)) acc s)))
      = List.length (calls s) + fuel.
Proof.
  intros Hclosed. induction fuel as [| fuel IH]; intros v acc s Hv.
  - simpl. split; [reflexivity | lia].
  - destruct (Hclosed v Hv) as (q & Hvq & Hq).
    destruct (prev_page_hop s Hvq) as (s1 & E & Hlen).
    simpl. unfold bind. rewrite E.
    destruct (IH q (data v :: acc) s1 Hq) as [Hx Hl].
    unfold Outcome in *. split; [exact Hx | rewrite Hl; lia].
Qed.

(** X6.  [all] has no guard against a collection that runs in a circle:
    if the receiver lies in a set of pages each of which has a previous
    page in the set, then for every bound on its first loop the loop is
    still running when the bound is reached, one more fetch having been
    made than iterations were allowed. *)
Theorem all_runs_on_in_a_circle
  (P : Page -> Prop) (fuel : nat) (c : Page) (s : St) :
  closed_backward run_fetcher P ->
  P c ->
  fst (fst (all run_fetcher fuel c s)) = None /\
  List.length (calls (snd (all run_fetcher fuel c s))) =
    List.length (calls s) + S fuel.
Proof.
  intros Hclosed Hc.
  destruct (Hclosed c Hc) as (q & Hcq & Hq).
  destruct (prev_page_hop s Hcq) as (s1 & E & Hlen).
  destruct (@while_prev_circle P fuel Hclosed q [data c] s1 Hq) as [Hx Hl].
  unfold all, bind. rewrite E. unfold Outcome in *.
  destruct (while_prev run_fetcher fuel (Some (ok q)) [data c] s1)
    as [x s2].
  simpl in Hx, Hl. subst x. simpl. split; [reflexivity | lia].
Qed.

(** ** Which fields the methods read *)




(** ** From the constructor to the first hop *)

Lemma constructor_fields (o : Options) (p : Page)
  (logs : list (Logger * string)) :
  constructor createChild LIKELY_BUG o = (Normal p, logs) ->
  prevToken p = or_null (opt_prevToken o) /\
  nextToken p = or_null (opt_nextToken o) /\
  getWithToken p = opt_getWithToken o /\
  logger p = createChild (opt_logger o) "Pagination#constructor" /\
  logs = [].
Proof.
  unfold constructor.
  destruct (opt_resultsPerPage o), (opt_totalResults o); simpl;
    intros H; try discriminate.
  injection H as <- <-. simpl. auto.
Qed.

Lemma not_token_or_null (v : Optional string) :
  not_token (or_null v) = true <-> absent v \/ v = present EmptyString.
Proof.
  unfold absent. destruct v as [| | [| a t]]; simpl; split; intros H;
    auto; try discriminate;
    destruct H as [[H | H] | H]; discriminate.
Qed.

(** X9.  For a cursor the constructor has built, [prev] (resp. [next])
    answers [null] without a fetch exactly when the option [prevToken]
    (resp. [nextToken]) was missing, [null] or the empty string; with any
    other token it calls the [getWithToken] of the options once, with that
    token.  A successful construction logs nothing. *)
Theorem constructed_cursor_hops
  (o : Options) (p : Page) (logs : list (Logger * string)) (s : St) :
  constructor createChild LIKELY_BUG o = (Normal p, logs) ->
  (prev run_fetcher p s = (None, p, s) <->
   absent (opt_prevToken o) \/ opt_prevToken o = present EmptyString) /\
  (next run_fetcher p s = (None, p, s) <->
   absent (opt_nextToken o) \/ opt_nextToken o = present EmptyString) /\
  (forall token,
     opt_prevToken o = present token -> truthy token = true ->
     calls (snd (prev run_fetcher p s)) =
       calls s ++
       [mkCall in_prev (opt_getWithToken o) token
          (fst (run_fetcher (opt_getWithToken o) token (world s)))]) /\
  (forall token,
     opt_nextToken o = present token -> truthy token = true ->
     calls (snd (next run_fetcher p s)) =
       calls s ++
       [mkCall in_next (opt_getWithToken o) token
          (fst (run_fetcher (opt_getWithToken o) token (world s)))]) /\
  logs = [].
Proof.
  intros H.
  destruct (@constructor_fields o p logs H) as (Hp & Hn & Hg & _ & Hl).
  split; [| split; [| split; [| split; [| exact Hl]]]].
  - rewrite <- not_token_or_null, <- Hp. split.
    + intros E.
      destruct (prev_hop p s) as [[Hstop _] | (token & _ & _ & E')];
        [exact Hstop | rewrite E' in E; discriminate].
    + apply prev_falsy.
  - rewrite <- not_token_or_null, <- Hn. split.
    + intros E.
      destruct (next_hop p s) as [[Hstop _] | (token & _ & _ & E')];
        [exact Hstop | rewrite E' in E; discriminate].
    + apply next_falsy.
  - intros token Ht Hy. rewrite Ht in Hp. simpl in Hp.
    rewrite (prev_truthy p s Hp Hy), Hg. reflexivity.
  - intros token Ht Hy. rewrite Ht in Hn. simpl in Hn.
    rewrite (next_truthy p s Hn Hy), Hg. reflexivity.
Qed.

End Properties.

(** * The sample collection: instances of the theorems *)

Import Sample.

Lemma sample_serves_a : serves run healthy "a" (pageA healthy).
Proof. intros w. reflexivity. Qed.

Lemma sample_serves_b (f : SampleFetcher) : serves run f "b" (pageB f).
Proof. intros w. reflexivity. Qed.

Lemma sample_serves_c (f : SampleFetcher) : serves run f "c" (pageC f).
Proof. intros w. reflexivity. Qed.

Lemma sample_chain :
  chain run [pageA healthy; pageB healthy; pageC healthy].
Proof.
  simpl. split; [reflexivity |]. split; [| split; [| reflexivity]].
  - split.
    + exists "b". auto using sample_serves_b.
    + exists "a". auto using sample_serves_a.
  - split.
    + exists "c". auto using sample_serves_c.
    + exists "b". auto using sample_serves_b.
Qed.

Lemma sample_deterministic (f : SampleFetcher) (token : string) :
  deterministic run f token.
Proof. intros w1 w2. reflexivity. Qed.

Lemma all_gathers_chain_witness :
  exists result s',
    all run 3 (pageB healthy) start = (Some (ok result), pageB healthy, s') /\
    result = [[1; 2]; [3; 4]; [5]] /\
    List.length result = 3 /\
    3 <= List.length result /\
    List.length (calls s') + 1 = 0 + List.length result.
Proof.
  apply (@all_gathers_chain _ _ _ _ _ _ run
           [pageA healthy] [pageC healthy] (pageB healthy) 3 start).
  - exact sample_chain.
  - discriminate.
  - discriminate.
  - simpl. lia.
Defined.

Lemma all_first_failure_wins_witness :
  fst (fst (all run 3 (pageB flaky) start)) = Some (err "backendError") /\
  calls (snd (all run 3 (pageB flaky) start)) =
    [mkCall in_prev flaky "a" (err "backendError")].
Proof.
  destruct (all_first_failure_wins run 3 (pageB flaky) start)
    as (back & forth & Hc & _ & _ & H).
  simpl in Hc.
  destruct (H [] (mkCall in_prev flaky "a" (err "backendError")) []
              "backendError") as (Hr & _ & _).
  - symmetry. exact Hc.
  - reflexivity.
  - split; [exact Hr | reflexivity].
Defined.

Lemma constructor_requires_counts_witness :
  fst (constructor child likely_bug (options null (present 5%Z))) =
    Throw (Error likely_bug) /\
  fst (constructor child likely_bug (options (present 2%Z) undefined)) =
    Throw (Error likely_bug) /\
  exists p,
    constructor child likely_bug (options (present 2%Z) (present 5%Z)) =
      (Normal p, []) /\
    resultsPerPage p = 2%Z /\ totalResults p = 5%Z /\
    data p = [3; 4] /\ prevToken p = Some "a" /\ nextToken p = None /\
    getWithToken p = healthy.
Proof.
  split; [| split].
  - apply (proj1 (constructor_requires_counts child likely_bug
                    (options null (present 5%Z)))).
    left. right. reflexivity.
  - apply (proj1 (constructor_requires_counts child likely_bug
                    (options (present 2%Z) undefined))).
    right. left. reflexivity.
  - apply (proj2 (constructor_requires_counts child likely_bug
                    (options (present 2%Z) (present 5%Z))) 2%Z 5%Z);
      reflexivity.
Defined.

Lemma prev_without_token_witness :
  prev run (pageA healthy) start = (None, pageA healthy, start).
Proof.
  apply (prev_without_token run (pageA healthy) start). reflexivity.
Defined.

Lemma next_without_token_witness :
  next run (pageC healthy) start = (None, pageC healthy, start).
Proof.
  apply (next_without_token run (pageC healthy) start). reflexivity.
Defined.

Lemma hop_fetches_once_witness :
  prev run (pageB flaky) start =
    (Some (err "backendError"), pageB flaky,
     {| world := 1;
        calls := [mkCall in_prev flaky "a" (err "backendError")] |}) /\
  next run (pageB flaky) start =
    (Some (ok (pageC flaky)), pageB flaky,
     {| world := 1;
        calls := [mkCall in_next flaky "c" (ok (pageC flaky))] |}).
Proof.
  split.
  - apply (proj1 (hop_fetches_once run (pageB flaky) start "a" eq_refl)).
    reflexivity.
  - apply (proj2 (hop_fetches_once run (pageB flaky) start "c" eq_refl)).
    reflexivity.
Defined.

(** The claim C6 as first stated, for every present token, fails on the
    page whose [prevToken] is the empty string: the constructor builds that
    page, and [prev] answers [null] without any fetch. *)
Lemma present_token_counterexample :
  constructor child likely_bug optionsE = (Normal pageE, []) /\
  ~ (forall (c : Page) (s : State _ _ _ _ _ _) (token : string),
       prevToken c = Some token ->
       exists r w,
         prev run c s =
           (Some r, c,
            {| world := w;
               calls := calls s ++
                        [mkCall in_prev (getWithToken c) token r] |})).
Proof.
  split; [reflexivity |].
  intros H. destruct (H pageE start EmptyString eq_refl) as (r & w & E).
  discriminate E.
Qed.

Lemma three_page_round_trip_witness :
  fst (fst (next run (pageB healthy) start)) = Some (ok (pageC healthy)) /\
  fst (fst (prev run (pageC healthy) start)) = Some (ok (pageB healthy)).
Proof.
  apply (@three_page_round_trip _ _ _ _ _ _ run
           (pageA healthy) (pageB healthy) (pageC healthy) start).
  exact sample_chain.
Defined.

Lemma prev_twice_fetches_twice_witness :
  exists r s1 s2,
    prev run (pageB healthy) start = (Some r, pageB healthy, s1) /\
    prev run (pageB healthy) s1 = (Some r, pageB healthy, s2) /\
    calls s2 =
      [mkCall in_prev healthy "a" r; mkCall in_prev healthy "a" r] /\
    (forall p1 p2,
       fst (fst (prev run (pageB healthy) start)) = Some (ok p1) ->
       fst (fst (prev run (pageB healthy) s1)) = Some (ok p2) ->
       data p1 = data p2).
Proof.
  apply (@prev_twice_fetches_twice _ _ _ _ _ _ run
           (pageB healthy) start "a").
  - reflexivity.
  - reflexivity.
  - apply sample_deterministic.
Defined.

(** The claim C8 as first stated, for every present token, fails on the
    page whose [prevToken] is the empty string: two calls of [prev] add
    nothing to the trace, although the sample fetcher is deterministic. *)
Lemma prev_twice_counterexample :
  ~ (forall (c : Page) (s : State _ _ _ _ _ _) (token : string),
       prevToken c = Some token ->
       deterministic run (getWithToken c) token ->
       List.length (calls (snd (prev run c (snd (prev run c s))))) =
         List.length (calls s) + 2).
Proof.
  intros H.
  specialize (H pageE start EmptyString eq_refl
                (sample_deterministic healthy EmptyString)).
  discriminate H.
Qed.

Lemma empty_token_is_no_token_witness :
  prev run pageE start = (None, pageE, start) /\
  next run pageE start = (None, pageE, start).
Proof.
  split.
  - apply (proj1 (empty_token_is_no_token run pageE start)). reflexivity.
  - apply (proj1 (proj2 (empty_token_is_no_token run pageE start))).
    reflexivity.
Defined.

(** * The sample collections: instances of the further theorems *)

Lemma all_answers_fetched_payloads_witness :
  exists back forth,
    calls (snd (all run 3 (pageB healthy) start)) =
      calls start ++ back ++ forth /\
    Forall (fun k => call_site k = in_prev) back /\
    Forall (fun k => call_site k = in_next) forth /\
    [[1; 2]; [3; 4]; [5]] =
      rev (payloads back) ++ data (pageB healthy) :: payloads forth /\
    List.length [[1; 2]; [3; 4]; [5]] =
      S (List.length back + List.length forth).
Proof.
  apply (@all_answers_fetched_payloads _ _ _ _ _ _ run
           3 (pageB healthy) start).
  reflexivity.
Defined.

Lemma all_error_is_last_answer_witness :
  exists l k,
    calls (snd (all run 3 (pageC flaky) start)) = calls start ++ l ++ [k] /\
    call_outcome k = err "backendError".
Proof.
  apply (@all_error_is_last_answer _ _ _ _ _ _ run 3 (pageC flaky) start).
  reflexivity.
Defined.

Lemma all_ok_reaches_both_ends_witness :
  exists back forth,
    calls (snd (all run 3 (pageB healthy) start)) =
      calls start ++ back ++ forth /\
    follows in_prev (@prevToken _ _ _ _) (pageB healthy) back /\
    follows in_next (@nextToken _ _ _ _) (pageB healthy) forth /\
    not_token (prevToken (last_page (pageB healthy) back)) = true /\
    not_token (nextToken (last_page (pageB healthy) forth)) = true /\
    (forall k, In k (back ++ forth) -> exists p, call_outcome k = ok p).
Proof.
  apply (@all_ok_reaches_both_ends _ _ _ _ _ _ run
           3 (pageB healthy) start [[1; 2]; [3; 4]; [5]]).
  reflexivity.
Defined.

Lemma all_from_any_page_witness :
  (exists s',
     all run 3 (pageA healthy) start =
       (Some (ok [[1; 2]; [3; 4]; [5]]), pageA healthy, s') /\
     List.length (calls s') + 1 = 0 + 3) /\
  (exists s',
     all run 1 pageE start = (Some (ok [[6]]), pageE, s') /\
     List.length (calls s') + 1 = 0 + 1).
Proof.
  split.
  - apply (@all_from_any_page _ _ _ _ _ _ run
             [] [pageB healthy; pageC healthy] (pageA healthy) 3 start).
    + exact sample_chain.
    + simpl. lia.
  - apply (@all_from_any_page _ _ _ _ _ _ run [] [] pageE 1 start).
    + simpl. split; reflexivity.
    + simpl. lia.
Defined.

Lemma circle_closed : closed_backward Circle.run (fun p => p = Circle.page).
Proof.
  intros p ->. exists Circle.page. split; [| reflexivity].
  exists "again". repeat split.
Qed.

Lemma all_runs_on_in_a_circle_witness :
  fst (fst (all Circle.run 5 Circle.page Circle.start)) = None /\
  List.length (calls (snd (all Circle.run 5 Circle.page Circle.start))) =
    0 + 6.
Proof.
  apply (@all_runs_on_in_a_circle _ _ _ _ _ _ Circle.run
           (fun p => p = Circle.page) 5 Circle.page Circle.start).
  - exact circle_closed.
  - reflexivity.
Defined.


Lemma constructed_cursor_hops_witness :
  prev run pageE start = (None, pageE, start) /\
  next run pageE start = (None, pageE, start).
Proof.
  pose proof (@constructed_cursor_hops _ _ _ _ _ _ child likely_bug run
                optionsE pageE [] start eq_refl) as (Hp & Hn & _).
  split.
  - apply Hp. right. reflexivity.
  - apply Hn. right. reflexivity.
Defined.

(** * Cursors as shared objects: what the methods do to the receiver *)

Section SharedProperties.

Variables T number YouTubesJsErrors Logger Fetcher World : Type.
Variable call :
  Fetcher -> Shared.Ref -> string ->
  Shared.Store T number Logger Fetcher World ->
  Shared.Answer YouTubesJsErrors * Shared.Store T number Logger Fetcher World.

Local Abbreviation Store := (Shared.Store T number Logger Fetcher World).

Lemma shared_prev_cases (this : Shared.Ref) (s : Store) :
  Shared.prev call this s = (None, s) \/
  exists token,
    prevToken (Shared.objects s this) = Some token /\
    truthy token = true /\
    Shared.prev call this s =
      (Some (fst (call (getWithToken (Shared.objects s this)) this token s)),
       snd (call (getWithToken (Shared.objects s this)) this token s)).
Proof.
  unfold Shared.prev.
  destruct (prevToken (Shared.objects s this)) as [token |]; [| now left].
  destruct (truthy token) eqn:Hy; [| now left].
  right. exists token. simpl.
  now destruct (call (getWithToken (Shared.objects s this)) this token s).
Qed.

Lemma shared_next_cases (this : Shared.Ref) (s : Store) :
  Shared.next call this s = (None, s) \/
  exists token,
    nextToken (Shared.objects s this) = Some token /\
    truthy token = true /\
    Shared.next call this s =
      (Some (fst (call (getWithToken (Shared.objects s this)) this token s)),
       snd (call (getWithToken (Shared.objects s this)) this token s)).
Proof.
  unfold Shared.next.
  destruct (nextToken (Shared.objects s this)) as [token |]; [| now left].
  destruct (truthy token) eqn:Hy; [| now left].
  right. exists token. simpl.
  now destruct (call (getWithToken (Shared.objects s this)) this token s).
Qed.

Section Quiet.

Variable this : Shared.Ref.
Variable reachable : Store -> Prop.
Hypothesis quiet : Shared.quiet_about call this reachable.

(** What the steps of the methods keep: the store stays among the
    reachable ones and the cursor [this] is as it was. *)
Definition kept (s s' : Store) : Prop :=
  reachable s' /\ Shared.objects s' this = Shared.objects s this.

Lemma shared_prev_kept (receiver : Shared.Ref) (s : Store) :
  reachable s -> kept s (snd (Shared.prev call receiver s)).
Proof.
  intros Hs.
  destruct (shared_prev_cases receiver s) as [E | (token & _ & _ & E)];
    rewrite E; simpl.
  - now split.
  - now apply quiet.
Qed.

Lemma shared_next_kept (receiver : Shared.Ref) (s : Store) :
  reachable s -> kept s (snd (Shared.next call receiver s)).
Proof.
  intros Hs.
  destruct (shared_next_cases receiver s) as [E | (token & _ & _ & E)];
    rewrite E; simpl.
  - now split.
  - now apply quiet.
Qed.

Lemma shared_while_prev_kept (fuel : nat) :
  forall (p : option (Shared.Answer YouTubesJsErrors)) (acc : list T)
         (s : Store),
    reachable s -> kept s (snd (Shared.while_prev call fuel p acc s)).
Proof.
  induction fuel as [| fuel IH]; intros [[v | e] |] acc s Hs; simpl;
    try (now split).
  destruct (shared_prev_kept v Hs) as [Hr He].
  destruct (Shared.prev call v s) as [p' s1]. simpl in Hr, He.
  destruct (IH p' (data (Shared.objects s v) :: acc) s1 Hr) as [Hr' He'].
  split; [exact Hr' | congruence].
Qed.

Lemma shared_while_next_kept (fuel : nat) :
  forall (p : option (Shared.Answer YouTubesJsErrors)) (acc : list T)
         (s : Store),
    reachable s -> kept s (snd (Shared.while_next call fuel p acc s)).
Proof.
  induction fuel as [| fuel IH]; intros [[v | e] |] acc s Hs; simpl;
    try (now split).
  destruct (shared_next_kept v Hs) as [Hr He].
  destruct (Shared.next call v s) as [p' s1]. simpl in Hr, He.
  destruct (IH p' (acc ++ [data (Shared.objects s v)]) s1 Hr) as [Hr' He'].
  split; [exact Hr' | congruence].
Qed.

Lemma shared_all_kept (fuel : nat) (receiver : Shared.Ref) (s : Store) :
  reachable s -> kept s (snd (Shared.all call fuel receiver s)).
Proof.
  intros Hs. unfold Shared.all.
  destruct (shared_prev_kept receiver Hs) as [R1 E1].
  destruct (Shared.prev call receiver s) as [p s1]. simpl in R1, E1.
  destruct (shared_while_prev_kept fuel p
              [data (Shared.objects s receiver)] R1) as [R2 E2].
  destruct (Shared.while_prev call fuel p
              [data (Shared.objects s receiver)] s1) as [[acc | e |] s2];
    simpl in R2, E2 |- *; try (split; [exact R2 | congruence]).
  destruct (shared_next_kept receiver R2) as [R3 E3].
  destruct (Shared.next call receiver s2) as [n s3]. simpl in R3, E3.
  destruct (shared_while_next_kept fuel n acc R3) as [R4 E4].
  destruct (Shared.while_next call fuel n acc s3) as [[acc' | e |] s4];
    simpl in R4, E4 |- *; split; try exact R4; congruence.
Qed.

Lemma shared_run_ops_kept (ops : list Op) :
  forall s, reachable s -> kept s (Shared.run_ops call ops this s).
Proof.
  induction ops as [| op ops IH]; intros s Hs; simpl; [now split |].
  assert (H : kept s (Shared.run_op call op this s)).
  { destruct op as [| | fuel]; simpl;
      auto using shared_prev_kept, shared_next_kept, shared_all_kept. }
  destruct H as [Hr He]. destruct (IH _ Hr) as [Hr' He'].
  split; [exact Hr' | congruence].
Qed.

End Quiet.

(** C10 (amended).  The methods assign no field and make no cursor.  If
    the fetchers leave a cursor alone, then after any sequence of calls of
    [prev], [next] and [all] on it every field of that cursor ([data],
    [resultsPerPage], [totalResults], both tokens, [getWithToken]) is as
    it was.  And a hop on any cursor either answers [null] and leaves the
    store untouched, or answers exactly what that cursor's fetcher
    answered, called on that cursor with its token, and leaves the store
    exactly as the fetcher left it: an adjacent page is the cursor the
    fetcher hands over. *)
Theorem methods_assign_no_field
  (reachable : Store -> Prop) (this : Shared.Ref) (ops : list Op)
  (s : Store) :
  (Shared.quiet_about call this reachable ->
   reachable s ->
   Shared.objects (Shared.run_ops call ops this s) this =
     Shared.objects s this) /\
  (forall (receiver : Shared.Ref) (s0 : Store),
     (Shared.prev call receiver s0 = (None, s0) \/
      exists token,
        prevToken (Shared.objects s0 receiver) = Some token /\
        truthy token = true /\
        Shared.prev call receiver s0 =
          (Some (fst (call (getWithToken (Shared.objects s0 receiver))
                        receiver token s0)),
           snd (call (getWithToken (Shared.objects s0 receiver))
                  receiver token s0))) /\
     (Shared.next call receiver s0 = (None, s0) \/
      exists token,
        nextToken (Shared.objects s0 receiver) = Some token /\
        truthy token = true /\
        Shared.next call receiver s0 =
          (Some (fst (call (getWithToken (Shared.objects s0 receiver))
                        receiver token s0)),
           snd (call (getWithToken (Shared.objects s0 receiver))
                  receiver token s0)))).
Proof.
  split.
  - intros Hq Hs.
    now destruct (@shared_run_ops_kept this reachable Hq ops s Hs).
  - intros receiver s0. split.
    + apply shared_prev_cases.
    + apply shared_next_cases.
Qed.

End SharedProperties.

Lemma tidy_quiet (this : Shared.Ref) :
  Shared.quiet_about Meddler.tidy this (fun _ => True).
Proof. intros f receiver token s _. split; [exact I | reflexivity]. Qed.

Lemma methods_assign_no_field_witness :
  fst (Shared.all Meddler.tidy 3 1 Meddler.start) =
    Some (ok [[1; 2]; [3; 4]; [5]]) /\
  Shared.objects
    (Shared.run_ops Meddler.tidy [op_prev; op_next; op_all 3] 1
       Meddler.start) 1 =
    Meddler.page_at 1.
Proof.
  split; [reflexivity |].
  apply (proj1 (@methods_assign_no_field _ _ _ _ _ _ Meddler.tidy
                  (fun _ => True) 1 [op_prev; op_next; op_all 3]
                  Meddler.start)).
  - apply tidy_quiet.
  - exact I.
Defined.

(** The claim C10 as first stated, for every cursor and every fetcher,
    fails for the fetcher [meddling]: one call of [prev] on the cursor at
    reference 1 leaves it with another [data], and the page it delivers is
    that same cursor, not a new one. *)
Lemma receiver_frame_counterexample :
  ~ (forall (ops : list Op) (this : Shared.Ref)
            (s : Shared.Store (list nat) Z string unit unit),
       Shared.objects (Shared.run_ops Meddler.meddling ops this s) this =
         Shared.objects s this) /\
  data (Shared.objects Meddler.start 1) = [3; 4] /\
  data (Shared.objects (snd (Shared.prev Meddler.meddling 1 Meddler.start)) 1)
    = [] /\
  fst (Shared.prev Meddler.meddling 1 Meddler.start) = Some (ok 1).
Proof.
  split; [| repeat split; reflexivity].
  intros H. specialize (H [op_prev] 1 Meddler.start).
  apply (f_equal (@data _ _ _ _)) in H. discriminate H.
Qed.
